(** * Terminal link openers (vs/workbench/contrib/terminal/browser/links/terminalLinkOpeners.ts)

    A shallow embedding of [TerminalSearchLinkOpener], of
    [TerminalLocalFileLinkOpener] with its line and column extraction, of
    [TerminalLocalFolderInWorkspaceLinkOpener], and of the JavaScript
    string primitives they rely on, followed by their properties.

    Conventions of the model:
    - a JavaScript string is a list of code units, here [list ascii]
      (code units below 256);
    - a number is a double; those that occur here are [NaN], the
      infinities, the negative zero and the doubles with an integer value,
      and [parseInt] rounds the integer it reads to the nearest double;
    - regular expressions are values of [regex], run by a backtracking
      matcher that lists the successful paths in priority order;
    - the injected services (file service, search service, editor service,
      quick access, command detection) are oracles in an [Env] record, and
      every call to one of them is recorded in a trace. *)

From Stdlib Require Import List Ascii String ZArith Lia Bool Arith.
Import ListNotations.

Local Open Scope list_scope.

(** ** JavaScript strings *)

Module JS.

Definition str := list ascii.

Definition lit (s : string) : str := list_ascii_of_string s.

Definition str_eqb (a b : str) : bool :=
  if list_eq_dec ascii_dec a b then true else false.

(** [s.substring(0, n)] and [s.substring(n)] for [0 <= n]. *)
Definition substring_to (n : nat) (s : str) : str := firstn n s.
Definition substring_from (n : nat) (s : str) : str := skipn n s.

(** [s.includes(c)] for a one-character [c]. *)
Definition includes (c : ascii) (s : str) : bool :=
  existsb (Ascii.eqb c) s.

(** [s.split(c)] for a one-character separator: never the empty array. *)
Fixpoint split (c : ascii) (s : str) : list str :=
  match s with
  | [] => [[]]
  | x :: t =>
      if Ascii.eqb x c then [] :: split c t
      else match split c t with
           | [] => [[x]]
           | seg :: segs => (x :: seg) :: segs
           end
  end.

(** [a.join(c)]. *)
Fixpoint join (c : ascii) (l : list str) : str :=
  match l with
  | [] => []
  | [a] => a
  | a :: rest => a ++ c :: join c rest
  end.

(** JavaScript truthiness of a string or of [undefined]. *)
Definition truthy (o : option str) : bool :=
  match o with
  | Some (_ :: _) => true
  | _ => false
  end.

(** *** Numbers and [parseInt] *)

(** A Number, as far as the openers meet them: [NaN], the infinities,
    the negative zero, and [Num z], the double whose value is the integer
    [z].  The doubles that [parseInt] returns all have one of these
    forms. *)
Inductive number :=
| NaN
| Num (z : Z)
| NegZero
| Infinity (negative : bool).

Definition is_digit (c : ascii) : bool :=
  let n := nat_of_ascii c in (48 <=? n) && (n <=? 57).

Definition is_white (c : ascii) : bool :=
  let n := nat_of_ascii c in
  ((9 <=? n) && (n <=? 13)) || (n =? 32) || (n =? 160).

Local Open Scope Z_scope.

(** The value of a digit in a radix, when it is one. *)
Definition digit_value (radix : Z) (c : ascii) : option Z :=
  let n := Z.of_nat (nat_of_ascii c) in
  let v :=
    if (48 <=? n) && (n <=? 57) then n - 48
    else if (97 <=? n) && (n <=? 122) then n - 87
    else if (65 <=? n) && (n <=? 90) then n - 55
    else 36 in
  if v <? radix then Some v else None.

(** Longest prefix of digits of the radix, accumulated left to right;
    [None] when there is no digit at all. *)
Fixpoint parse_digits (radix : Z) (acc : option Z) (s : str) : option Z :=
  match s with
  | [] => acc
  | c :: t =>
      match digit_value radix c with
      | Some v =>
          parse_digits radix
            (Some (match acc with Some a => a * radix + v | None => v end)) t
      | None => acc
      end
  end.

Fixpoint trim_start (s : str) : str :=
  match s with
  | c :: t => if is_white c then trim_start t else s
  | [] => []
  end.

(** The double nearest to a positive integer [n], ties to the even
    significand, as the value of that double; [None] when it is
    infinite.  Below 2^53 every integer is a double; above, a double has
    53 significant bits, so that the low bits of [n] are rounded away;
    from 2^1024 - 2^970 on the nearest double is the infinity. *)
Definition round_magnitude (n : Z) : option Z :=
  if n <? 2 ^ 53 then Some n
  else
    let e := Z.log2 n - 52 in
    let q := Z.shiftr n e in
    let r := n - Z.shiftl q e in
    let half := Z.shiftl 1 (e - 1) in
    let q' := if (half <? r) || ((r =? half) && Z.odd q) then q + 1 else q in
    let v := Z.shiftl q' e in
    if 2 ^ 1024 <=? v then None else Some v.

(** The Number value of the integer [n], negated when [negative]. *)
Definition to_number (negative : bool) (n : Z) : number :=
  if n =? 0 then (if negative then NegZero else Num 0)
  else
    match round_magnitude n with
    | Some v => Num (if negative then - v else v)
    | None => Infinity negative
    end.

(** [parseInt(s, radix)]; [radix = None] is a call without the second
    argument: leading white space is skipped, a sign is read, the prefix
    [0x] selects or confirms the radix 16, and the longest run of digits
    of the radix is read as an integer, whose Number value is the
    result; [NaN] when there is no digit.  (The language lets an
    implementation read the decimal digits after the twentieth as zeros;
    the engine of the workbench does not, and neither does this
    definition.) *)
Definition parseInt (s : str) (radix : option Z) : number :=
  let radix := match radix with Some 0 => None | _ => radix end in
  let s := trim_start s in
  let negative :=
    match s with
    | c :: _ => Ascii.eqb c "-"
    | [] => false
    end in
  let s :=
    match s with
    | c :: t => if Ascii.eqb c "-" || Ascii.eqb c "+" then t else s
    | [] => s
    end in
  let hex :=
    match s with
    | c0 :: c1 :: _ =>
        Ascii.eqb c0 "0" && (Ascii.eqb c1 "x" || Ascii.eqb c1 "X")
    | _ => false
    end in
  let stripPrefix :=
    match radix with
    | Some r => r =? 16
    | None => true
    end in
  let r :=
    if stripPrefix && hex then 16
    else match radix with Some r => r | None => 10 end in
  let s := if stripPrefix && hex then skipn 2 s else s in
  if (r <? 2) || (36 <? r) then NaN
  else
    match parse_digits r None s with
    | Some v => to_number negative v
    | None => NaN
    end.

(** The decimal value of a string of digits. *)
Definition decimal (s : str) : Z :=
  fold_left (fun a c => a * 10 + (Z.of_nat (nat_of_ascii c) - 48)) s 0.

Local Close Scope Z_scope.

End JS.

(** ** Regular expressions

    The fragment of JavaScript regular expressions that the openers use:
    character classes, the anchors, sequence, alternation, the greedy
    quantifiers [?], [*] and [+], and capture groups.  [ms r st] lists the states in
    which a match of [r] started in [st] can end, in the order in which a
    backtracking matcher tries them, so that the head of the list of the
    whole expression is the match JavaScript reports. *)

Module Regex.

Import JS.

Inductive regex :=
| Chr (p : ascii -> bool)
| Bol
| Eol
| Seq (r1 r2 : regex)
| Opt (r : regex)
| Star (r : regex)
| Group (i : nat) (r : regex)
| Alt (r1 r2 : regex).

Definition Plus (r : regex) : regex := Seq r (Star r).

Definition chr_is (c : ascii) : ascii -> bool := Ascii.eqb c.

(** A literal word. *)
Fixpoint Word (w : str) (k : regex) : regex :=
  match w with
  | [] => k
  | c :: t => Seq (Chr (chr_is c)) (Word t k)
  end.

(** A position in the subject: the index, what is left to read, and the
    captures made so far (latest first). *)
Record mstate := MState {
  pos : nat;
  rest : str;
  caps : list (nat * str)
}.

Definition set_cap (i : nat) (from to : mstate) : mstate :=
  MState (pos to) (rest to)
         ((i, firstn (pos to - pos from) (rest from)) :: caps to).

(** Greedy iteration; an iteration that reads nothing is not repeated. *)
Fixpoint iter_star (step : mstate -> list mstate) (fuel : nat) (st : mstate)
  : list mstate :=
  match fuel with
  | O => [st]
  | S n =>
      flat_map (fun st' => if pos st <? pos st' then iter_star step n st' else [])
               (step st) ++ [st]
  end.

Fixpoint ms (r : regex) (st : mstate) : list mstate :=
  match r with
  | Chr p =>
      match rest st with
      | c :: t => if p c then [MState (S (pos st)) t (caps st)] else []
      | [] => []
      end
  | Bol => if pos st =? 0 then [st] else []
  | Eol => match rest st with [] => [st] | _ :: _ => [] end
  | Seq r1 r2 => flat_map (ms r2) (ms r1 st)
  | Opt r1 => ms r1 st ++ [st]
  | Star r1 => iter_star (ms r1) (S (List.length (rest st))) st
  | Group i r1 => map (set_cap i st) (ms r1 st)
  | Alt r1 r2 => ms r1 st ++ ms r2 st
  end.

(** The leftmost match: the start index and the end state. *)
Fixpoint search (r : regex) (p : nat) (s : str) : option (nat * mstate) :=
  match ms r (MState p s []) with
  | st :: _ => Some (p, st)
  | [] =>
      match s with
      | [] => None
      | _ :: t => search r (S p) t
      end
  end.

Definition exec (r : regex) (s : str) : option (nat * mstate) :=
  search r 0 s.

(** The capture of group [i], [undefined] when the group took no part. *)
Fixpoint capture (i : nat) (cs : list (nat * str)) : option str :=
  match cs with
  | [] => None
  | (j, v) :: t => if i =? j then Some v else capture i t
  end.

(** [s.replace(r, '')] for a non-global [r]. *)
Definition replace_empty (r : regex) (s : str) : str :=
  match exec r s with
  | Some (start, st) => firstn start s ++ rest st
  | None => s
  end.

(** [s.match(r)] for a non-global [r]: the captures of groups [1..n]. *)
Definition match_groups (r : regex) (n : nat) (s : str)
  : option (list (option str)) :=
  match exec r s with
  | Some (_, st) => Some (map (fun i => capture i (caps st)) (seq 1 n))
  | None => None
  end.

End Regex.

(** ** The collaborators of the openers *)

Module Services.

Import JS.

(** [Schemas.vscodeRemote] and [Schemas.file]. *)
Inductive Scheme :=
| vscodeRemote
| file.

(** [URI.from({ scheme, path })]. *)
Record URI := URI_from {
  scheme : Scheme;
  path : str
}.

Record IWorkspaceFolder := {
  name : str;
  uri : URI
}.

Record ITerminalSimpleLink := {
  text : str;
  bufferRange_start_y : Z;
  link_uri : option URI
}.

Record ITextEditorSelection := {
  startLineNumber : number;
  startColumn : number
}.

Record ITextEditorOptions := {
  pinned : bool;
  revealIfOpened : bool;
  selection : option ITextEditorSelection
}.

Record IResourceEditorInput := {
  resource : URI;
  options : ITextEditorOptions
}.

Record IFileStat := {
  isFile : bool
}.

(** The query that [QueryBuilder.file(folders, { filePattern, maxResults })]
    describes. *)
Record IFileQuery := {
  folderQueries : list IWorkspaceFolder;
  filePattern : str;
  maxResults : Z
}.

Record LineColumnInfo := {
  lineNumber : number;
  columnNumber : number
}.

Inductive OperatingSystem :=
| Windows
| Macintosh
| Linux.

Definition os_is_windows (os : OperatingSystem) : bool :=
  match os with Windows => true | _ => false end.

(** A value thrown by a service. *)
Inductive Error :=
| Err (message : str).

Inductive result (A : Type) :=
| Ok (a : A)
| Throw (e : Error).

Arguments Ok {A} a.
Arguments Throw {A} e.

(** What the host platform fixes: [isWindows] of vs/base/common/platform,
    [normalize] and [isAbsolute] of vs/base/common/path. *)
Record Platform := {
  isWindows : bool;
  normalize : str -> str;
  isAbsolute : str -> bool
}.

(** The services injected into [TerminalSearchLinkOpener].  A service call
    answers [Ok] or throws; [commandDetection] is the capability of that
    name when the terminal has it, given as its [getCwdForLine]. *)
Record Env := {
  platform : Platform;
  workspace_folders : list IWorkspaceFolder;
  remoteAuthority : option str;
  commandDetection : option (Z -> option str);
  fileService_resolve : URI -> result IFileStat;
  searchService_fileSearch : IFileQuery -> result (list URI);
  editorService_openEditor : IResourceEditorInput -> result unit;
  quickAccess_show : str -> result unit
}.

(** The calls an opener makes, in the order it makes them. *)
Inductive Event :=
| EvResolve (r : URI)
| EvFileSearch (q : IFileQuery)
| EvOpenEditor (i : IResourceEditorInput)
| EvQuickAccess (t : str).

(** Computations that call services: they extend the trace and return or
    throw. *)
Definition M (A : Type) : Type := list Event -> result A * list Event.

Definition ret {A} (a : A) : M A := fun tr => (Ok a, tr).

Definition bind {A B} (m : M A) (f : A -> M B) : M B :=
  fun tr =>
    match m tr with
    | (Ok a, tr') => f a tr'
    | (Throw e, tr') => (Throw e, tr')
    end.

(** [try { m } catch { h }]. *)
Definition try_catch {A} (m : M A) (h : M A) : M A :=
  fun tr =>
    match m tr with
    | (Ok a, tr') => (Ok a, tr')
    | (Throw _, tr') => h tr'
    end.

Definition call {A} (ev : Event) (answer : result A) : M A :=
  fun tr => (answer, tr ++ [ev]).

Definition run {A} (m : M A) : result A * list Event := m [].

End Services.

Declare Scope opener_scope.
Notation "x <- m ;; k" := (Services.bind m (fun x => k))
  (at level 61, m at next level, right associativity) : opener_scope.
Notation "m ;;; k" := (Services.bind m (fun _ => k))
  (at level 61, right associativity) : opener_scope.

(** ** TerminalLocalFileLinkOpener *)

Module LocalFileLinkOpener.

Import JS Services.

(** The constants imported from terminalLocalLinkDetector, and the regular
    expression [_localLinkRegex] built from them for an operating system
    (the local link clause followed by the group of line and column
    clauses), given by its [exec]: [None] is [null], and the list is the
    array of matches, entry 0 being the whole match. *)
Record LinkGrammar := {
  localLinkRegex_exec : OperatingSystem -> str -> option (list (option str));
  lineAndColumnClause_length : nat;
  lineAndColumnClauseGroupCount : nat;
  winLineAndColumnMatchIndex : nat;
  unixLineAndColumnMatchIndex : nat
}.

(** [matches[i]], [undefined] past the end of the array. *)
Definition at_index (matches : list (option str)) (i : nat) : option str :=
  match nth_error matches i with
  | Some v => v
  | None => None
  end.

(** The [for] loop of [extractLineColumnInfo], from index [i] on, with
    [todo] iterations left before [i] reaches [lineAndColumnClause.length]. *)
Fixpoint extract_loop (matches : list (option str))
    (lineAndColumnMatchIndex groupCount : nat) (i todo : nat)
    (lineColumnInfo : LineColumnInfo) : LineColumnInfo :=
  match todo with
  | O => lineColumnInfo
  | S todo' =>
      let lineMatchIndex := lineAndColumnMatchIndex + groupCount * i in
      let rowNumber := at_index matches lineMatchIndex in
      if truthy rowNumber then
        let row := match rowNumber with Some r => r | None => [] end in
        let lineColumnInfo :=
          {| lineNumber := parseInt row (Some 10%Z);
             columnNumber := columnNumber lineColumnInfo |} in
        let columnNumber := at_index matches (lineMatchIndex + 2) in
        if truthy columnNumber then
          let col := match columnNumber with Some c => c | None => [] end in
          {| lineNumber := lineNumber lineColumnInfo;
             columnNumber := parseInt col (Some 10%Z) |}
        else lineColumnInfo
      else
        extract_loop matches lineAndColumnMatchIndex groupCount (S i) todo'
                     lineColumnInfo
  end.

(** The value of the constant [lineAndColumnMatchIndex] of
    [extractLineColumnInfo]. *)
Definition lineAndColumnMatchIndex (g : LinkGrammar) (_os : OperatingSystem)
  : nat :=
  if os_is_windows _os then winLineAndColumnMatchIndex g
  else unixLineAndColumnMatchIndex g.

Definition extractLineColumnInfo (g : LinkGrammar) (_os : OperatingSystem)
    (link : str) : LineColumnInfo :=
  let matches := localLinkRegex_exec g _os link in
  let lineColumnInfo := {| lineNumber := Num 1; columnNumber := Num 1 |} in
  match matches with
  | None => lineColumnInfo
  | Some matches =>
      extract_loop matches (lineAndColumnMatchIndex g _os)
                   (lineAndColumnClauseGroupCount g) 0
                   (lineAndColumnClause_length g) lineColumnInfo
  end.

(** The index, in the array of matches, of the line capture of the
    clause number [i]; its column capture is two entries further. *)
Definition lineMatchIndex (g : LinkGrammar) (_os : OperatingSystem) (i : nat)
  : nat :=
  lineAndColumnMatchIndex g _os + lineAndColumnClauseGroupCount g * i.

End LocalFileLinkOpener.

(** ** TerminalSearchLinkOpener *)

Module SearchLinkOpener.

Import JS Regex Services.

Local Open Scope opener_scope.

Definition digit : regex := Chr is_digit.

(** [/^file:\/\/\/?/] *)
Definition re_file_scheme : regex :=
  Seq Bol (Word (lit "file://") (Opt (Chr (chr_is "/")))).

(** [/^(\.+[\\/])+/] *)
Definition re_leading_dots : regex :=
  Seq Bol
      (Plus (Group 1 (Seq (Plus (Chr (chr_is ".")))
                          (Chr (fun c => chr_is "\" c || chr_is "/" c))))).

(** [/:in$/] *)
Definition re_in_suffix : regex := Word (lit ":in") Eol.

(** [/:\d+(:\d+)?$/] *)
Definition re_line_column_suffix : regex :=
  Seq (Chr (chr_is ":"))
      (Seq (Plus digit)
           (Seq (Opt (Group 1 (Seq (Chr (chr_is ":")) (Plus digit)))) Eol)).

(** [/:(\d+)?(:(\d+))?$/] *)
Definition re_line_column : regex :=
  Seq (Chr (chr_is ":"))
      (Seq (Opt (Group 1 (Plus digit)))
           (Seq (Opt (Group 2 (Seq (Chr (chr_is ":")) (Group 3 (Plus digit)))))
                Eol)).

Definition pathSeparator (p : Platform) : ascii :=
  if isWindows p then "\"%char else "/"%char.

(** The callback of [folders.forEach]: [text] is the variable of [open]
    that the callback assigns; its [return] ends the callback only. *)
Definition strip_folder (pathSeparator : ascii) (text : str)
    (folder : IWorkspaceFolder) : str :=
  if str_eqb (substring_to (List.length (name folder) + 1) text)
             (name folder ++ [pathSeparator])
  then substring_from (List.length (name folder) + 1) text
  else text.

(** The value of [text] after the [forEach], from [link.text]. *)
Definition open_text (env : Env) (link_text : str) : str :=
  let pathSeparator := pathSeparator (platform env) in
  let text := replace_empty re_file_scheme link_text in
  let text := replace_empty re_leading_dots (normalize (platform env) text) in
  let text := replace_empty re_in_suffix text in
  fold_left (strip_folder pathSeparator) (workspace_folders env) text.

(** [a === b] on array entries. *)
Definition strict_eq (a b : option str) : bool :=
  match a, b with
  | Some x, Some y => str_eqb x y
  | None, None => true
  | _, _ => false
  end.

Definition _updateLinkWithRelativeCwd (env : Env) (y : Z) (text : str)
    (pathSeparator : ascii) : option str :=
  let cwd :=
    match commandDetection env with
    | Some getCwdForLine => getCwdForLine y
    | None => None
    end in
  match cwd with
  | None => None
  | Some cwd =>
      if negb (truthy (Some cwd)) then None
      else if negb (includes pathSeparator text) then
        Some (cwd ++ pathSeparator :: text)
      else
        let cwdPath := rev (split pathSeparator cwd) in
        let linkPath := split pathSeparator text in
        let commonDirs :=
          fold_left
            (fun commonDirs i =>
               if strict_eq (nth_error cwdPath i) (nth_error linkPath i)
               then S commonDirs else commonDirs)
            (seq 0 (List.length cwdPath)) 0 in
        Some (cwd ++ pathSeparator
                  :: join pathSeparator (skipn commonDirs linkPath))
  end.

(** The value of [matchLink]. *)
Definition open_matchLink (env : Env) (link : ITerminalSimpleLink) : str :=
  let text := open_text env (text link) in
  match commandDetection env with
  | Some _ =>
      let r := _updateLinkWithRelativeCwd env (bufferRange_start_y link) text
                 (pathSeparator (platform env)) in
      if truthy r then match r with Some t => t | None => text end else text
  | None => text
  end.

(** The value of [sanitizedLink]. *)
Definition open_sanitizedLink (env : Env) (link : ITerminalSimpleLink) : str :=
  replace_empty re_line_column_suffix (open_matchLink env link).

Definition _getExactMatch (env : Env) (sanitizedLink link : str)
  : M (option URI) :=
  exactResource <-
    (if isAbsolute (platform env) sanitizedLink then
       let scheme :=
         if truthy (remoteAuthority env) then vscodeRemote else file in
       let resource := URI_from scheme sanitizedLink in
       fileStat <- call (EvResolve resource) (fileService_resolve env resource) ;;
       ret (if isFile fileStat then Some resource else None)
     else ret None) ;;
  match exactResource with
  | Some _ => ret exactResource
  | None =>
      let query :=
        {| folderQueries := workspace_folders env;
           filePattern := sanitizedLink;
           maxResults := 2 |} in
      results <- call (EvFileSearch query) (searchService_fileSearch env query) ;;
      ret (match results with
           | [r] => Some r
           | _ => None
           end)
  end.

(** The [selection] option handed to [openEditor]. *)
Definition open_selection (matchLink : str) : option ITextEditorSelection :=
  let m := match_groups re_line_column 3 matchLink in
  let group (i : nat) : option str :=
    match m with
    | Some gs => LocalFileLinkOpener.at_index gs (i - 1)
    | None => None
    end in
  let startLineNumber := group 1 in
  let startColumn := group 3 in
  if truthy startLineNumber then
    Some {| startLineNumber :=
              parseInt (match startLineNumber with Some l => l | None => [] end)
                       None;
            startColumn :=
              if truthy startColumn then
                parseInt (match startColumn with Some c => c | None => [] end)
                         None
              else Num 0 |}
  else None.

(** How a block was left: by a [return], or by running to its end. *)
Inductive completion :=
| Returned
| Completed.

Definition open (env : Env) (link : ITerminalSimpleLink) : M unit :=
  let text := open_text env (text link) in
  let matchLink := open_matchLink env link in
  let sanitizedLink := open_sanitizedLink env link in
  c <- try_catch
         (exactMatch <- _getExactMatch env sanitizedLink matchLink ;;
          match exactMatch with
          | Some exactMatch =>
              let input :=
                {| resource := exactMatch;
                   options := {| pinned := true;
                                 revealIfOpened := true;
                                 selection := open_selection matchLink |} |} in
              call (EvOpenEditor input) (editorService_openEditor env input) ;;;
              ret Returned
          | None => ret Completed
          end)
         (call (EvQuickAccess text) (quickAccess_show env text) ;;;
          ret Returned) ;;
  match c with
  | Returned => ret tt
  | Completed => call (EvQuickAccess text) (quickAccess_show env text)
  end.

End SearchLinkOpener.

(** ** The POSIX platform *)

Module Posix.

Import JS Services.

(** Modelled from the spec: [normalize] and [isAbsolute] of
    vs/base/common/path (and [isWindows] of vs/base/common/platform) are
    not part of the sources at hand.  The specification asks for the
    canonicalisation of the [.] and [..] segments as pure string work with
    the separators of the operating system; this is that operation for
    POSIX paths, as Node's [path.posix.normalize] performs it: empty and
    [.] segments are dropped, [..] removes the segment before it (and stays
    when a relative path has none left to remove), a trailing separator is
    kept, and the empty result is written [.]. *)
Fixpoint normalize_segments (allowAboveRoot : bool) (done : list str)
    (segments : list str) : list str :=
  match segments with
  | [] => rev done
  | seg :: more =>
      if str_eqb seg [] || str_eqb seg (lit ".") then
        normalize_segments allowAboveRoot done more
      else if str_eqb seg (lit "..") then
        match done with
        | last :: before =>
            if str_eqb last (lit "..") then
              normalize_segments allowAboveRoot
                (if allowAboveRoot then seg :: done else done) more
            else normalize_segments allowAboveRoot before more
        | [] =>
            normalize_segments allowAboveRoot
              (if allowAboveRoot then [seg] else []) more
        end
      else normalize_segments allowAboveRoot (seg :: done) more
  end.

(** Modelled from the spec: [isAbsolute] of vs/base/common/path is not
    part of the sources at hand; a POSIX path is absolute when it starts
    with the separator. *)
Definition posix_isAbsolute (p : str) : bool :=
  match p with
  | "/"%char :: _ => true
  | _ => false
  end.

(** Modelled from the spec: [normalize] of vs/base/common/path is not
    part of the sources at hand; the canonicalisation of the segments
    above, with the leading separator of an absolute path and a trailing
    separator kept. *)
Definition posix_normalize (p : str) : str :=
  match p with
  | [] => lit "."
  | _ :: _ =>
      let isAbsolute := posix_isAbsolute p in
      let trailingSeparator :=
        match rev p with "/"%char :: _ => true | _ => false end in
      let body :=
        join "/" (normalize_segments (negb isAbsolute) [] (split "/" p)) in
      match body with
      | [] =>
          if isAbsolute then lit "/"
          else if trailingSeparator then lit "./" else lit "."
      | _ :: _ =>
          (if isAbsolute then lit "/" else [])
            ++ body ++ (if trailingSeparator then lit "/" else [])
      end
  end.

(** Modelled from the spec: [isWindows] of vs/base/common/platform is not
    part of the sources at hand; it is false on a POSIX host. *)
Definition posix : Platform :=
  {| isWindows := false;
     normalize := posix_normalize;
     isAbsolute := posix_isAbsolute |}.

End Posix.

(** ** Concrete environments *)

Module Examples.

Import JS Services LocalFileLinkOpener SearchLinkOpener Posix.

Definition folder (n : string) (root : string) : IWorkspaceFolder :=
  {| name := lit n; uri := URI_from file (lit root) |}.

Definition link_of (t : string) : ITerminalSimpleLink :=
  {| text := lit t; bufferRange_start_y := 0%Z; link_uri := None |}.

(** A POSIX host whose file service answers [stat] and whose search
    service answers [found]; the editor and quick access succeed. *)
Definition host (folders : list IWorkspaceFolder)
    (cwd : option (Z -> option str))
    (stat : URI -> result IFileStat)
    (found : IFileQuery -> result (list URI)) : Env :=
  {| platform := posix;
     workspace_folders := folders;
     remoteAuthority := None;
     commandDetection := cwd;
     fileService_resolve := stat;
     searchService_fileSearch := found;
     editorService_openEditor := fun _ => Ok tt;
     quickAccess_show := fun _ => Ok tt |}.

Definition enoent : Error := Err (lit "ENOENT").

(** No folder, no file anywhere. *)
Definition empty_host : Env :=
  host [] None (fun _ => Throw enoent) (fun _ => Ok []).

(** Two workspace folders, named [a] and [b]. *)
Definition two_folders_host : Env :=
  host [folder "a" "/w/a"; folder "b" "/w/b"] None
       (fun _ => Throw enoent) (fun _ => Ok []).

(** Every absolute path is a file. *)
Definition all_files_host : Env :=
  host [folder "proj" "/home/u/proj"] None
       (fun _ => Ok {| isFile := true |}) (fun _ => Ok []).

(** Every absolute path is a directory, and the search finds one file. *)
Definition one_result_host : Env :=
  host [folder "proj" "/home/u/proj"] None
       (fun _ => Ok {| isFile := false |})
       (fun q => Ok [URI_from file (lit "/home/u/proj/" ++ filePattern q)]).

(** The search service fails. *)
Definition search_fails_host : Env :=
  host [folder "proj" "/home/u/proj"] None
       (fun _ => Ok {| isFile := false |})
       (fun _ => Throw (Err (lit "search failed"))).

(** The shell reports [/home/u/proj] as the directory of every line. *)
Definition cwd_host : Env :=
  host [] (Some (fun _ => Some (lit "/home/u/proj")))
       (fun _ => Throw enoent) (fun _ => Ok []).

(** The editor fails to open what the search finds. *)
Definition editor_fails_host : Env :=
  {| platform := posix;
     workspace_folders := [folder "proj" "/home/u/proj"];
     remoteAuthority := None;
     commandDetection := None;
     fileService_resolve := fun _ => Throw enoent;
     searchService_fileSearch :=
       fun q => Ok [URI_from file (lit "/home/u/proj/" ++ filePattern q)];
     editorService_openEditor := fun _ => Throw (Err (lit "cannot open"));
     quickAccess_show := fun _ => Ok tt |}.

(** A grammar with two clauses of six groups each, whose expression
    answers [matches] whatever the link. *)
Definition grammar_answering (matches : option (list (option str)))
  : LinkGrammar :=
  {| localLinkRegex_exec := fun _ _ => matches;
     lineAndColumnClause_length := 2;
     lineAndColumnClauseGroupCount := 6;
     winLineAndColumnMatchIndex := 4;
     unixLineAndColumnMatchIndex := 3 |}.

(** The arrays of matches of [/a/b], [/a/b:42] and [/a/b:42:7] when the
    second clause is the one that reads a colon suffix. *)
Definition matches_plain : list (option str) :=
  [Some (lit "/a/b"); Some (lit "/a/b"); None; None; None; None; None;
   Some []; None; None; None; None].

Definition matches_line : list (option str) :=
  [Some (lit "/a/b:42"); Some (lit "/a/b"); None; None; None; None; None;
   Some (lit ":42"); None; Some (lit "42"); None; None].

Definition matches_line_column : list (option str) :=
  [Some (lit "/a/b:42:7"); Some (lit "/a/b"); None; None; None; None; None;
   Some (lit ":42:7"); None; Some (lit "42"); Some (lit ":7");
   Some (lit "7")].

(** The stat finds a directory and the search finds two files. *)
Definition two_results_host : Env :=
  host [folder "proj" "/home/u/proj"] None
       (fun _ => Ok {| isFile := false |})
       (fun q => Ok [URI_from file (lit "/home/u/proj/a/" ++ filePattern q);
                     URI_from file (lit "/home/u/proj/b/" ++ filePattern q)]).

End Examples.

(** ** Vocabulary of the statements *)

Module Observations.

Import JS Regex Services SearchLinkOpener.

(** The resource that [_getExactMatch] stats for an absolute path. *)
Definition stat_resource (env : Env) (sanitizedLink : str) : URI :=
  URI_from (if truthy (remoteAuthority env) then vscodeRemote else file)
           sanitizedLink.

(** The query that [_getExactMatch] hands to the search service. *)
Definition search_query (env : Env) (sanitizedLink : str) : IFileQuery :=
  {| folderQueries := workspace_folders env;
     filePattern := sanitizedLink;
     maxResults := 2 |}.

(** What [_getExactMatch] makes of the answer of the search service. *)
Definition search_answer (env : Env) (sanitizedLink : str)
  : result (option URI) :=
  match searchService_fileSearch env (search_query env sanitizedLink) with
  | Ok [r] => Ok (Some r)
  | Ok _ => Ok None
  | Throw e => Throw e
  end.

(** The argument of [openEditor] for an exact match. *)
Definition editor_input (exactMatch : URI) (matchLink : str)
  : IResourceEditorInput :=
  {| resource := exactMatch;
     options := {| pinned := true;
                   revealIfOpened := true;
                   selection := open_selection matchLink |} |}.

(** The stat step of [_getExactMatch] ran and found no file: the path is
    not absolute, or its stat says that it is not a file. *)
Definition stat_finds_no_file (env : Env) (sanitizedLink : str) : Prop :=
  isAbsolute (platform env) sanitizedLink = false \/
  (isAbsolute (platform env) sanitizedLink = true /\
   exists st, fileService_resolve env (stat_resource env sanitizedLink) = Ok st
              /\ isFile st = false).

(** The stat calls that precede the search. *)
Definition stat_calls (env : Env) (sanitizedLink : str) : list Event :=
  if isAbsolute (platform env) sanitizedLink
  then [EvResolve (stat_resource env sanitizedLink)] else [].

(** The search service was called. *)
Definition searched (tr : list Event) : Prop :=
  exists q, In (EvFileSearch q) tr.

(** [w] is a prefix, a suffix of [s]. *)
Definition starts_with (w s : str) : bool :=
  str_eqb (firstn (List.length w) s) w.

Definition ends_with (w s : str) : bool :=
  str_eqb (skipn (List.length s - List.length w) s) w.

Definition all_digits (d : str) : Prop := forallb is_digit d = true.

(** The longest prefix of characters of a class, and what follows it. *)
Fixpoint take_while (p : ascii -> bool) (s : str) : str :=
  match s with
  | c :: t => if p c then c :: take_while p t else []
  | [] => []
  end.

Fixpoint drop_while (p : ascii -> bool) (s : str) : str :=
  match s with
  | c :: t => if p c then drop_while p t else s
  | [] => []
  end.

Definition is_separator (c : ascii) : bool :=
  chr_is "\" c || chr_is "/" c.

(** [s] starts with one or more dots followed by a slash or a backslash. *)
Definition starts_with_dot_segment (s : str) : bool :=
  match take_while (chr_is ".") s, drop_while (chr_is ".") s with
  | _ :: _, c :: _ => is_separator c
  | _, _ => false
  end.

(** [s] ends with a colon followed by digits: by one digit at least, or
    by any number of them when [allow_none]. *)
Definition ends_with_colon_digits (allow_none : bool) (s : str) : bool :=
  match drop_while is_digit (rev s) with
  | c :: _ =>
      chr_is ":" c
      && (allow_none
          || match take_while is_digit (rev s) with [] => false | _ => true end)
  | [] => false
  end.

End Observations.

(** ** The grammar of the local link detector *)

Module Detector.

Import JS Regex Services LocalFileLinkOpener.




























End Detector.

(** ** The two direct openers *)

Module FileLinkOpener.

Import JS Services LocalFileLinkOpener.

Definition throw {A} (e : Error) : M A := fun tr => (Throw e, tr).

(** [TerminalLocalFileLinkOpener.open], with the [openEditor] of its
    editor service as an oracle.  The [console.log] of the source writes
    to the console only and is left out. *)
Definition open (g : LinkGrammar) (_os : OperatingSystem)
    (editorService_openEditor : IResourceEditorInput -> result unit)
    (link : ITerminalSimpleLink) : M unit :=
  match link_uri link with
  | None =>
      throw (Err (lit "Tried to open file link without a resolved URI"))
  | Some uri =>
      let lineColumnInfo := extractLineColumnInfo g _os (text link) in
      let selection :=
        {| startLineNumber := lineNumber lineColumnInfo;
           startColumn := columnNumber lineColumnInfo |} in
      let input :=
        {| resource := uri;
           options := {| pinned := true;
                         revealIfOpened := true;
                         selection := Some selection |} |} in
      call (EvOpenEditor input) (editorService_openEditor input)
  end.

End FileLinkOpener.

Module FolderLinkOpener.

Import JS Services.

(** The calls of the command service. *)
Inductive CommandEvent :=
| EvExecuteCommand (id : str) (arg : URI).

(** [TerminalLocalFolderInWorkspaceLinkOpener.open], with the
    [executeCommand] of its command service as an oracle: the result and
    the calls made. *)
Definition open (commandService_executeCommand : str -> URI -> result unit)
    (link : ITerminalSimpleLink) : result unit * list CommandEvent :=
  match link_uri link with
  | None =>
      (Throw (Err (lit
         "Tried to open folder in workspace link without a resolved URI")),
       [])
  | Some uri =>
      (commandService_executeCommand (lit "revealInExplorer") uri,
       [EvExecuteCommand (lit "revealInExplorer") uri])
  end.

End FolderLinkOpener.

(** ** Further vocabulary *)

Module Shapes.

Import JS Regex Services SearchLinkOpener Observations.

(** A dot segment: one or more dots and a slash or a backslash. *)
Definition is_dot_segment (seg : str * ascii) : bool :=
  match fst seg with
  | [] => false
  | _ :: _ => forallb (chr_is ".") (fst seg) && is_separator (snd seg)
  end.

(** The text of a run of segments, each with the character that ends it. *)
Fixpoint segments_text (segs : list (str * ascii)) : str :=
  match segs with
  | [] => []
  | (d, c) :: more => d ++ c :: segments_text more
  end.

(** The number of indices below [n] at which the two arrays hold the
    same string. *)
Definition positional_matches (a b : list str) (n : nat) : nat :=
  List.length
    (filter (fun i => strict_eq (nth_error a i) (nth_error b i)) (seq 0 n)).

(** The directory that the command detection reports for a row, when
    there is one that [_updateLinkWithRelativeCwd] can use: the
    capability is present and its answer is a non-empty string. *)
Definition usable_cwd (env : Env) (y : Z) : option str :=
  match commandDetection env with
  | Some getCwdForLine =>
      match getCwdForLine y with
      | Some (c :: t) => Some (c :: t)
      | _ => None
      end
  | None => None
  end.

(** A link with the given text, on row 0, resolved to [u]. *)
Definition resolved_link (t : string) (u : option URI) : ITerminalSimpleLink :=
  {| text := lit t; bufferRange_start_y := 0%Z; link_uri := u |}.

End Shapes.

(** ** Static checks on expressions *)

Module Analysis.

Import JS Regex.






(** The groups of [r] have indices from [n] on. *)
Fixpoint groups_from (n : nat) (r : regex) : bool :=
  match r with
  | Chr _ | Bol | Eol => true
  | Seq r1 r2 | Alt r1 r2 => groups_from n r1 && groups_from n r2
  | Opt r1 | Star r1 => groups_from n r1
  | Group i r1 => (n <=? i) && groups_from n r1
  end.


End Analysis.

(** ** The fragments that the detector reads as a path *)

Module Fragments.

Import JS Regex Services Detector Analysis.









End Fragments.

(** * Properties *)

Module Effects.

Import JS Regex Services SearchLinkOpener Observations.

Local Open Scope opener_scope.

(** ** The calls of [_getExactMatch] and of [open] *)

Lemma bind_call {A B} (ev : Event) (a : result A) (f : A -> M B) tr :
  bind (call ev a) f tr =
  match a with
  | Ok x => f x (tr ++ [ev])
  | Throw e => (Throw e, tr ++ [ev])
  end.
Proof. unfold bind, call. now destruct a. Qed.

Lemma getExactMatch_run (env : Env) (sanitizedLink link : str) :
  run (_getExactMatch env sanitizedLink link) =
  if isAbsolute (platform env) sanitizedLink then
    match fileService_resolve env (stat_resource env sanitizedLink) with
    | Ok st =>
        if isFile st
        then (Ok (Some (stat_resource env sanitizedLink)),
              [EvResolve (stat_resource env sanitizedLink)])
        else (search_answer env sanitizedLink,
              [EvResolve (stat_resource env sanitizedLink);
               EvFileSearch (search_query env sanitizedLink)])
    | Throw e => (Throw e, [EvResolve (stat_resource env sanitizedLink)])
    end
  else (search_answer env sanitizedLink,
        [EvFileSearch (search_query env sanitizedLink)]).
Proof.
  unfold run, _getExactMatch, search_answer, search_query, stat_resource.
  destruct (isAbsolute (platform env) sanitizedLink).
  - unfold bind at 1. rewrite bind_call.
    destruct (fileService_resolve env _) as [st|e]; [|reflexivity].
    unfold ret at 1. destruct (isFile st); [reflexivity|].
    rewrite bind_call. cbn.
    destruct (searchService_fileSearch env _) as [[|r [|r' rs]]|e]; reflexivity.
  - unfold bind at 1, ret at 1. rewrite bind_call. cbn.
    destruct (searchService_fileSearch env _) as [[|r [|r' rs]]|e]; reflexivity.
Qed.

(** [open] in terms of what [_getExactMatch] does. *)
Lemma open_run (env : Env) (link : ITerminalSimpleLink) :
  run (open env link) =
  let text := open_text env (text link) in
  let matchLink := open_matchLink env link in
  match run (_getExactMatch env (open_sanitizedLink env link) matchLink) with
  | (Ok (Some r), tr) =>
      match editorService_openEditor env (editor_input r matchLink) with
      | Ok _ => (Ok tt, tr ++ [EvOpenEditor (editor_input r matchLink)])
      | Throw _ =>
          (quickAccess_show env text,
           tr ++ [EvOpenEditor (editor_input r matchLink); EvQuickAccess text])
      end
  | (Ok None, tr) => (quickAccess_show env text, tr ++ [EvQuickAccess text])
  | (Throw _, tr) => (quickAccess_show env text, tr ++ [EvQuickAccess text])
  end.
Proof.
  cbv zeta. unfold run, open.
  unfold bind at 1, try_catch, bind at 1.
  destruct (_getExactMatch env (open_sanitizedLink env link)
              (open_matchLink env link) []) as [[[r|]|e] tr].
  - rewrite bind_call. fold (editor_input r (open_matchLink env link)).
    destruct (editorService_openEditor env _) as [u|e].
    + reflexivity.
    + rewrite bind_call. rewrite <- app_assoc. cbn [app].
      destruct (quickAccess_show env _) as [[]|e']; reflexivity.
  - unfold ret at 1. unfold call.
    destruct (quickAccess_show env _) as [[]|e']; reflexivity.
  - rewrite bind_call.
    destruct (quickAccess_show env _) as [[]|e']; reflexivity.
Qed.

End Effects.

Module Resolution.

Import JS Regex Services SearchLinkOpener Observations Effects Examples.

Lemma not_searched_resolve_only (r : URI) (tl : list Event) :
  (forall q, ~ In (EvFileSearch q) tl) ->
  ~ searched (EvResolve r :: tl).
Proof.
  intros Htl [q [Hq|Hq]]; [discriminate|]. exact (Htl q Hq).
Qed.

(** C7.  When the sanitized path is absolute and its stat reports a file,
    [_getExactMatch] returns the resource built from that path, with the
    remote scheme when a remote authority is configured and the file
    scheme otherwise, after the stat as its only call; [open] then hands
    that resource to the editor, and the search service is never called. *)
Theorem absolute_file_is_exact_match_without_search
    (env : Env) (sanitizedLink link : str) (st : IFileStat) :
  isAbsolute (platform env) sanitizedLink = true ->
  fileService_resolve env (stat_resource env sanitizedLink) = Ok st ->
  isFile st = true ->
  scheme (stat_resource env sanitizedLink)
    = (if truthy (remoteAuthority env) then vscodeRemote else file) /\
  path (stat_resource env sanitizedLink) = sanitizedLink /\
  run (_getExactMatch env sanitizedLink link)
    = (Ok (Some (stat_resource env sanitizedLink)),
       [EvResolve (stat_resource env sanitizedLink)]) /\
  ~ searched (snd (run (_getExactMatch env sanitizedLink link))) /\
  forall lk,
    open_sanitizedLink env lk = sanitizedLink ->
    ~ searched (snd (run (open env lk))) /\
    exists tl,
      snd (run (open env lk))
      = EvResolve (stat_resource env sanitizedLink)
          :: EvOpenEditor (editor_input (stat_resource env sanitizedLink)
                                        (open_matchLink env lk))
          :: tl.
Proof.
  intros Habs Hstat Hfile.
  assert (Hrun : forall l, run (_getExactMatch env sanitizedLink l)
                 = (Ok (Some (stat_resource env sanitizedLink)),
                    [EvResolve (stat_resource env sanitizedLink)])).
  { intro l. rewrite getExactMatch_run, Habs, Hstat, Hfile. reflexivity. }
  repeat split.
  - apply Hrun.
  - rewrite Hrun. apply not_searched_resolve_only. intros q [].
  - rewrite open_run. cbv zeta. rewrite H, Hrun.
    destruct (editorService_openEditor env _); cbn [snd app];
      apply not_searched_resolve_only; intros q Hq; cbn in Hq;
      intuition discriminate.
  - rewrite open_run. cbv zeta. rewrite H, Hrun.
    destruct (editorService_openEditor env _); cbn [snd app]; eauto.
Qed.

Lemma absolute_file_is_exact_match_without_search_witness :
  run (_getExactMatch all_files_host (lit "/x/y.ts") (lit "/x/y.ts:3"))
    = (Ok (Some (URI_from file (lit "/x/y.ts"))),
       [EvResolve (URI_from file (lit "/x/y.ts"))]).
Proof.
  apply (absolute_file_is_exact_match_without_search
           all_files_host (lit "/x/y.ts") (lit "/x/y.ts:3")
           {| isFile := true |}); reflexivity.
Defined.

(** C3, as stated, fails: on a host whose stat throws for the absolute
    path [/x/y.ts], [_getExactMatch] throws after the stat and the search
    service is not called. *)
Lemma stat_failure_skips_search :
  isAbsolute (platform empty_host) (lit "/x/y.ts") = true /\
  fileService_resolve empty_host (stat_resource empty_host (lit "/x/y.ts"))
    = Throw enoent /\
  run (_getExactMatch empty_host (lit "/x/y.ts") (lit "/x/y.ts"))
    = (Throw enoent, [EvResolve (URI_from file (lit "/x/y.ts"))]) /\
  ~ searched (snd (run (_getExactMatch empty_host (lit "/x/y.ts")
                                       (lit "/x/y.ts")))).
Proof.
  repeat split.
  apply not_searched_resolve_only. intros q [].
Qed.

(** C3, amended.  When the sanitized path is not absolute, or its stat
    reports something that is not a file, [_getExactMatch] calls the
    search service once, over the workspace folders, with the sanitized
    path as the pattern and [maxResults = 2]: exactly one result is the
    exact match, no result or several results give none, and a failure
    of the search is thrown.  When the stat itself throws, the search
    service is not called and the error is thrown.  In [open], every case
    without an exact match ends in the quick access. *)
Theorem search_after_stat_miss (env : Env) (sanitizedLink link : str) :
  (folderQueries (search_query env sanitizedLink) = workspace_folders env /\
   filePattern (search_query env sanitizedLink) = sanitizedLink /\
   maxResults (search_query env sanitizedLink) = 2%Z) /\
  (stat_finds_no_file env sanitizedLink ->
   run (_getExactMatch env sanitizedLink link)
   = (search_answer env sanitizedLink,
      stat_calls env sanitizedLink
        ++ [EvFileSearch (search_query env sanitizedLink)])) /\
  (forall r,
      searchService_fileSearch env (search_query env sanitizedLink) = Ok [r] ->
      search_answer env sanitizedLink = Ok (Some r)) /\
  (forall rs,
      searchService_fileSearch env (search_query env sanitizedLink) = Ok rs ->
      List.length rs <> 1 ->
      search_answer env sanitizedLink = Ok None) /\
  (forall e,
      searchService_fileSearch env (search_query env sanitizedLink) = Throw e ->
      search_answer env sanitizedLink = Throw e) /\
  (forall e,
      isAbsolute (platform env) sanitizedLink = true ->
      fileService_resolve env (stat_resource env sanitizedLink) = Throw e ->
      run (_getExactMatch env sanitizedLink link)
        = (Throw e, [EvResolve (stat_resource env sanitizedLink)]) /\
      ~ searched (snd (run (_getExactMatch env sanitizedLink link)))) /\
  (forall lk,
      open_sanitizedLink env lk = sanitizedLink ->
      (forall r, fst (run (_getExactMatch env sanitizedLink
                                          (open_matchLink env lk)))
                 <> Ok (Some r)) ->
      exists tr,
        run (open env lk)
        = (quickAccess_show env (open_text env (text lk)),
           tr ++ [EvQuickAccess (open_text env (text lk))])).
Proof.
  split; [repeat split|].
  split.
  { intros Hmiss. rewrite getExactMatch_run. unfold stat_calls.
    destruct Hmiss as [Hrel|[Habs [st [Hst Hfile]]]].
    - rewrite Hrel. reflexivity.
    - rewrite Habs, Hst, Hfile. reflexivity. }
  split.
  { intros r H. unfold search_answer. rewrite H. reflexivity. }
  split.
  { intros rs H Hlen. unfold search_answer. rewrite H.
    destruct rs as [|r [|r' rs]]; cbn in Hlen; congruence. }
  split.
  { intros e H. unfold search_answer. rewrite H. reflexivity. }
  split.
  { intros e Habs Hst.
    assert (Hrun : run (_getExactMatch env sanitizedLink link)
                   = (Throw e, [EvResolve (stat_resource env sanitizedLink)])).
    { rewrite getExactMatch_run, Habs, Hst. reflexivity. }
    split; [exact Hrun|].
    rewrite Hrun. apply not_searched_resolve_only. intros q []. }
  intros lk Hs Hnone. rewrite open_run. cbv zeta. rewrite Hs.
  destruct (run (_getExactMatch env sanitizedLink (open_matchLink env lk)))
    as [[[r|]|e] tr]; cbn [fst] in Hnone.
  - exfalso. apply (Hnone r). reflexivity.
  - eauto.
  - eauto.
Qed.

Lemma search_after_stat_miss_witness :
  run (_getExactMatch one_result_host (lit "/x/y.ts") (lit "/x/y.ts:3"))
  = (Ok (Some (URI_from file (lit "/home/u/proj//x/y.ts"))),
     [EvResolve (URI_from file (lit "/x/y.ts"));
      EvFileSearch (search_query one_result_host (lit "/x/y.ts"))]) /\
  run (_getExactMatch two_results_host (lit "y.ts") (lit "y.ts:3"))
  = (Ok None, [EvFileSearch (search_query two_results_host (lit "y.ts"))]) /\
  run (_getExactMatch search_fails_host (lit "y.ts") (lit "y.ts:3"))
  = (Throw (Err (lit "search failed")),
     [EvFileSearch (search_query search_fails_host (lit "y.ts"))]) /\
  run (_getExactMatch empty_host (lit "/x/y.ts") (lit "/x/y.ts"))
  = (Throw enoent, [EvResolve (URI_from file (lit "/x/y.ts"))]) /\
  (exists tr,
      run (open two_results_host (link_of "y.ts:3"))
      = (Ok tt, tr ++ [EvQuickAccess (lit "y.ts:3")])).
Proof.
  split; [|split; [|split; [|split]]].
  - apply (search_after_stat_miss one_result_host (lit "/x/y.ts")
                                  (lit "/x/y.ts:3")).
    right. split; [reflexivity|].
    exists {| isFile := false |}. split; reflexivity.
  - apply (proj1 (proj2 (search_after_stat_miss two_results_host (lit "y.ts")
                                                (lit "y.ts:3")))).
    left. reflexivity.
  - apply (proj1 (proj2 (search_after_stat_miss search_fails_host (lit "y.ts")
                                                (lit "y.ts:3")))).
    left. reflexivity.
  - apply (proj1 (proj2 (proj2 (proj2 (proj2 (proj2
             (search_after_stat_miss empty_host (lit "/x/y.ts")
                                     (lit "/x/y.ts")))))))
             enoent eq_refl eq_refl).
  - apply (proj2 (proj2 (proj2 (proj2 (proj2 (proj2
             (search_after_stat_miss two_results_host (lit "y.ts")
                                     (lit "y.ts:3")))))))
             (link_of "y.ts:3") eq_refl).
    intros r. vm_compute. discriminate.
Defined.

(** C4.  An error thrown by the stat or by the search during [open] is
    caught there: [open] shows the quick access with the cleaned text and
    returns what the quick access returns, never the error of the stat or
    of the search. *)
Theorem capability_errors_fall_back
    (env : Env) (lk : ITerminalSimpleLink) (e : Error) :
  (isAbsolute (platform env) (open_sanitizedLink env lk) = true ->
   fileService_resolve env (stat_resource env (open_sanitizedLink env lk))
     = Throw e ->
   run (open env lk)
   = (quickAccess_show env (open_text env (text lk)),
      [EvResolve (stat_resource env (open_sanitizedLink env lk));
       EvQuickAccess (open_text env (text lk))])) /\
  (stat_finds_no_file env (open_sanitizedLink env lk) ->
   searchService_fileSearch env (search_query env (open_sanitizedLink env lk))
     = Throw e ->
   run (open env lk)
   = (quickAccess_show env (open_text env (text lk)),
      stat_calls env (open_sanitizedLink env lk)
        ++ [EvFileSearch (search_query env (open_sanitizedLink env lk));
            EvQuickAccess (open_text env (text lk))])).
Proof.
  split.
  - intros Habs Hst. rewrite open_run. cbv zeta.
    rewrite getExactMatch_run, Habs, Hst. reflexivity.
  - intros Hmiss Hsearch. rewrite open_run. cbv zeta.
    rewrite getExactMatch_run. unfold stat_calls, search_answer.
    rewrite Hsearch.
    destruct Hmiss as [Hrel|[Habs [st [Hst Hfile]]]].
    + rewrite Hrel. reflexivity.
    + rewrite Habs, Hst, Hfile. reflexivity.
Qed.

Lemma capability_errors_fall_back_witness :
  run (open empty_host (link_of "/x/y.ts:3"))
  = (Ok tt,
     [EvResolve (URI_from file (lit "/x/y.ts"));
      EvQuickAccess (lit "/x/y.ts:3")]) /\
  run (open search_fails_host (link_of "src/a.ts"))
  = (Ok tt,
     [EvFileSearch (search_query search_fails_host (lit "src/a.ts"));
      EvQuickAccess (lit "src/a.ts")]).
Proof.
  split.
  - apply (capability_errors_fall_back empty_host (link_of "/x/y.ts:3") enoent);
      reflexivity.
  - apply (capability_errors_fall_back search_fails_host (link_of "src/a.ts")
             (Err (lit "search failed"))).
    + left. reflexivity.
    + reflexivity.
Defined.

(** C10.  The [catch] of [open] also covers the call of the editor: when
    an exact match was found and [openEditor] throws, [open] shows the
    quick access with the cleaned text and returns what the quick access
    returns. *)
Theorem editor_failure_falls_back
    (env : Env) (lk : ITerminalSimpleLink) (r : URI) (tr : list Event)
    (e : Error) :
  run (_getExactMatch env (open_sanitizedLink env lk) (open_matchLink env lk))
    = (Ok (Some r), tr) ->
  editorService_openEditor env (editor_input r (open_matchLink env lk))
    = Throw e ->
  run (open env lk)
  = (quickAccess_show env (open_text env (text lk)),
     tr ++ [EvOpenEditor (editor_input r (open_matchLink env lk));
            EvQuickAccess (open_text env (text lk))]).
Proof.
  intros Hrun Hed. rewrite open_run. cbv zeta. rewrite Hrun, Hed.
  reflexivity.
Qed.

Lemma editor_failure_falls_back_witness :
  run (open editor_fails_host (link_of "proj/src/a.ts:3"))
  = (Ok tt,
     [EvFileSearch (search_query editor_fails_host (lit "src/a.ts"))]
       ++ [EvOpenEditor (editor_input (URI_from file (lit "/home/u/proj/src/a.ts"))
                                      (lit "src/a.ts:3"));
           EvQuickAccess (lit "src/a.ts:3")]).
Proof.
  apply (editor_failure_falls_back editor_fails_host
           (link_of "proj/src/a.ts:3")
           (URI_from file (lit "/home/u/proj/src/a.ts"))
           [EvFileSearch (search_query editor_fails_host (lit "src/a.ts"))]
           (Err (lit "cannot open"))); reflexivity.
Defined.

(** C2, as stated, fails: for the link [./lib/foo.rb:in] on a POSIX host
    without any matching file, no exact match is found and the quick
    access is shown with [lib/foo.rb], not with the text of the link. *)
Lemma search_hint_is_not_original_text :
  fst (run (_getExactMatch empty_host
              (open_sanitizedLink empty_host (link_of "./lib/foo.rb:in"))
              (open_matchLink empty_host (link_of "./lib/foo.rb:in"))))
    = Ok None /\
  run (open empty_host (link_of "./lib/foo.rb:in"))
    = (Ok tt,
       [EvFileSearch (search_query empty_host (lit "lib/foo.rb"));
        EvQuickAccess (lit "lib/foo.rb")]) /\
  ~ In (EvQuickAccess (text (link_of "./lib/foo.rb:in")))
       (snd (run (open empty_host (link_of "./lib/foo.rb:in")))).
Proof.
  repeat split.
  cbn. intros [H|[H|[]]]; discriminate.
Qed.

(** C2, amended.  Whenever no exact match is found, because
    [_getExactMatch] returns none or throws, [open] ends by showing the
    quick access, and the text it shows is [open_text]: the text of the
    link after the removal of the [file://] prefix, the path
    normalisation, and the removal of the leading dot segments, of the
    final [:in] and of the workspace folder prefixes. *)
Theorem search_hint_is_normalized_text
    (env : Env) (lk : ITerminalSimpleLink) :
  (forall r,
      fst (run (_getExactMatch env (open_sanitizedLink env lk)
                               (open_matchLink env lk)))
      <> Ok (Some r)) ->
  run (open env lk)
  = (quickAccess_show env (open_text env (text lk)),
     snd (run (_getExactMatch env (open_sanitizedLink env lk)
                              (open_matchLink env lk)))
       ++ [EvQuickAccess (open_text env (text lk))]).
Proof.
  intros Hnone. rewrite open_run. cbv zeta.
  destruct (run (_getExactMatch env (open_sanitizedLink env lk)
                                (open_matchLink env lk)))
    as [[[r|]|e] tr]; cbn [fst snd] in *.
  - exfalso. apply (Hnone r). reflexivity.
  - reflexivity.
  - reflexivity.
Qed.

Lemma search_hint_is_normalized_text_witness :
  run (open empty_host (link_of "./lib/foo.rb:in"))
  = (Ok tt,
     [EvFileSearch (search_query empty_host (lit "lib/foo.rb"))]
       ++ [EvQuickAccess (lit "lib/foo.rb")]).
Proof.
  apply (search_hint_is_normalized_text empty_host (link_of "./lib/foo.rb:in")).
  intros r. vm_compute. discriminate.
Defined.

End Resolution.

(** ** Strings and numbers *)

Module StringFacts.

Import JS Regex Observations.

Lemma str_eqb_eq (a b : str) : str_eqb a b = true <-> a = b.
Proof.
  unfold str_eqb. destruct (list_eq_dec ascii_dec a b); split; congruence.
Qed.

Lemma str_eqb_refl (a : str) : str_eqb a a = true.
Proof. now apply str_eqb_eq. Qed.

Lemma str_eqb_neq (a b : str) : str_eqb a b = false <-> a <> b.
Proof.
  unfold str_eqb. destruct (list_eq_dec ascii_dec a b); split; congruence.
Qed.

Lemma starts_with_spec (w s : str) :
  starts_with w s = true <-> exists t, s = w ++ t.
Proof.
  unfold starts_with. rewrite str_eqb_eq. split.
  - intros H. exists (skipn (List.length w) s).
    rewrite <- H at 1. symmetry. apply firstn_skipn.
  - intros [t ->]. rewrite firstn_app, firstn_all, Nat.sub_diag.
    cbn. apply app_nil_r.
Qed.

Lemma ends_with_spec (w s : str) :
  ends_with w s = true <-> exists t, s = t ++ w.
Proof.
  unfold ends_with. rewrite str_eqb_eq. split.
  - set (n := List.length s - List.length w). intros H.
    exists (firstn n s). rewrite <- H. symmetry. apply firstn_skipn.
  - intros [t ->]. rewrite length_app, Nat.add_sub.
    rewrite skipn_app, skipn_all, Nat.sub_diag. reflexivity.
Qed.

Lemma includes_false (c : ascii) (s : str) :
  ~ In c s -> includes c s = false.
Proof.
  unfold includes. induction s as [|x t IH]; intros Hnin; [reflexivity|].
  cbn. destruct (Ascii.eqb_spec c x) as [->|Hne].
  - exfalso. apply Hnin. now left.
  - apply IH. intros Hin. apply Hnin. now right.
Qed.

(** Facts about a single character are settled by enumeration. *)
Ltac by_cases_on_char c :=
  destruct c as [[] [] [] [] [] [] [] []]; try discriminate; reflexivity.

Lemma digit_not_white (c : ascii) : is_digit c = true -> is_white c = false.
Proof. by_cases_on_char c. Qed.

Lemma digit_not_sign (c : ascii) :
  is_digit c = true -> Ascii.eqb c "-" = false /\ Ascii.eqb c "+" = false.
Proof. intros H; split; revert H; by_cases_on_char c. Qed.

Lemma digit_not_x (c : ascii) :
  is_digit c = true -> Ascii.eqb c "x" || Ascii.eqb c "X" = false.
Proof. by_cases_on_char c. Qed.

Lemma digit_not_colon (c : ascii) :
  is_digit c = true -> chr_is ":" c = false.
Proof. by_cases_on_char c. Qed.

Lemma digit_value_decimal (c : ascii) :
  is_digit c = true ->
  digit_value 10 c = Some (Z.of_nat (nat_of_ascii c) - 48)%Z.
Proof. by_cases_on_char c. Qed.

Lemma parse_digits_decimal (d : str) (a : Z) :
  all_digits d ->
  parse_digits 10 (Some a) d
  = Some (fold_left (fun a c => a * 10 + (Z.of_nat (nat_of_ascii c) - 48))%Z
                    d a).
Proof.
  unfold all_digits. revert a.
  induction d as [|c t IH]; intros a Hd; [reflexivity|].
  cbn [forallb] in Hd. apply andb_prop in Hd as [Hc Ht].
  cbn [parse_digits fold_left]. rewrite (digit_value_decimal c Hc).
  now rewrite IH.
Qed.

Lemma take_drop_while_app (p : ascii -> bool) (d t : str) :
  forallb p d = true ->
  match t with c :: _ => p c = false | [] => True end ->
  take_while p (d ++ t) = d /\ drop_while p (d ++ t) = t.
Proof.
  intros Hd Ht. induction d as [|x d IH].
  - destruct t as [|c t]; [now split|]. cbn. now rewrite Ht.
  - cbn [forallb] in Hd. apply andb_prop in Hd as [Hx Hd].
    destruct (IH Hd) as [IH1 IH2]. cbn. rewrite Hx, IH1, IH2. now split.
Qed.

Lemma unique_last_occurrence (x : ascii) :
  forall a b c d : str,
    a ++ x :: b = c ++ x :: d -> ~ In x b -> ~ In x d -> a = c /\ b = d.
Proof.
  induction a as [|y a IH]; intros b c d Heq Hb Hd.
  - destruct c as [|z c]; cbn in Heq.
    + injection Heq as ->. now split.
    + injection Heq as -> ->. exfalso. apply Hb.
      apply in_or_app. right. now left.
  - destruct c as [|z c]; cbn in Heq.
    + injection Heq as -> <-. exfalso. apply Hd.
      apply in_or_app. right. now left.
    + injection Heq as -> Heq. destruct (IH b c d Heq Hb Hd) as [-> ->].
      now split.
Qed.

Lemma digits_no_colon (d : str) : all_digits d -> ~ In ":"%char d.
Proof.
  unfold all_digits. intros Hd Hin.
  pose proof (proj1 (forallb_forall _ _) Hd _ Hin) as H. discriminate H.
Qed.

Lemma all_digits_rev (d : str) : all_digits d -> all_digits (rev d).
Proof.
  unfold all_digits. intros Hd. apply forallb_forall. intros c Hc.
  apply in_rev in Hc. exact (proj1 (forallb_forall _ _) Hd c Hc).
Qed.

(** A string that is [p], a colon and digits ends with a colon and
    digits. *)
Lemma ends_with_colon_digits_intro (allow_none : bool) (p d : str) :
  all_digits d -> allow_none = true \/ d <> [] ->
  ends_with_colon_digits allow_none (p ++ ":"%char :: d) = true.
Proof.
  intros Hd Hnone. unfold ends_with_colon_digits.
  replace (rev (p ++ ":"%char :: d)) with (rev d ++ ":"%char :: rev p).
  2:{ rewrite rev_app_distr. cbn [rev]. now rewrite <- app_assoc. }
  destruct (take_drop_while_app is_digit (rev d) (":"%char :: rev p)
              (all_digits_rev d Hd) eq_refl) as [-> ->].
  unfold chr_is. rewrite Ascii.eqb_refl. cbn [andb].
  destruct Hnone as [->|Hne]; [reflexivity|].
  destruct d as [|c d]; [congruence|]. cbn [rev].
  destruct (rev d ++ [c]) eqn:E.
  - apply app_eq_nil in E as [_ E]. discriminate.
  - apply orb_true_r.
Qed.

Lemma decimal_nonnegative (d : str) : all_digits d -> (0 <= decimal d)%Z.
Proof.
  unfold decimal, all_digits.
  assert (H : forall a, (0 <= a)%Z -> forallb is_digit d = true ->
                        (0 <= fold_left (fun a c => a * 10
                                + (Z.of_nat (nat_of_ascii c) - 48))%Z d a)%Z).
  { induction d as [|c d IH]; intros a Ha Hd; [exact Ha|].
    cbn [forallb] in Hd. apply andb_prop in Hd as [Hc Hd].
    cbn [fold_left]. apply IH; [|exact Hd].
    unfold is_digit in Hc. apply andb_prop in Hc as [Hlo _].
    apply Nat.leb_le in Hlo. lia. }
  apply H. lia.
Qed.

(** On a non-empty string of digits, [parseInt], with the radix 10 or
    without a radix, is the Number value of the decimal value. *)
Lemma parseInt_decimal (d : str) (radix : option Z) :
  d <> [] -> all_digits d -> radix = None \/ radix = Some 10%Z ->
  parseInt d radix = to_number false (decimal d).
Proof.
  intros Hne Hd Hradix. destruct d as [|c t]; [congruence|].
  pose proof Hd as Hd'. unfold all_digits in Hd'. cbn [forallb] in Hd'.
  apply andb_prop in Hd' as [Hc Ht].
  unfold parseInt.
  assert (Hrad : match radix with Some 0%Z => None | _ => radix end = radix)
    by (destruct Hradix as [-> | ->]; reflexivity).
  rewrite Hrad.
  cbn [trim_start]. rewrite (digit_not_white c Hc).
  destruct (digit_not_sign c Hc) as [-> ->]. cbn [orb].
  assert (Hhex : match c :: t with
                 | c0 :: c1 :: _ =>
                     Ascii.eqb c0 "0" && (Ascii.eqb c1 "x" || Ascii.eqb c1 "X")
                 | _ => false
                 end = false).
  { destruct t as [|c1 t']; [reflexivity|].
    cbn [forallb] in Ht. apply andb_prop in Ht as [Hc1 _].
    rewrite (digit_not_x c1 Hc1). apply andb_false_r. }
  rewrite Hhex, andb_false_r.
  assert (Hr : match radix with Some r => r | None => 10%Z end = 10%Z)
    by (destruct Hradix as [-> | ->]; reflexivity).
  rewrite Hr. cbn [Z.ltb Z.compare Pos.compare Pos.compare_cont orb].
  cbn [parse_digits]. rewrite (digit_value_decimal c Hc).
  rewrite (parse_digits_decimal t _ Ht).
  unfold decimal. cbn [fold_left]. reflexivity.
Qed.

(** Up to 2^53 the Number value of an integer is that integer. *)
Lemma to_number_exact (n : Z) :
  (0 <= n <= 2 ^ 53)%Z -> to_number false n = Num n.
Proof.
  intros [Hlo Hhi]. unfold to_number.
  destruct (Z.eqb_spec n 0) as [->|Hnz]; [reflexivity|].
  unfold round_magnitude.
  destruct (Z.ltb_spec n (2 ^ 53)); [reflexivity|].
  assert (n = 2 ^ 53)%Z as -> by lia. reflexivity.
Qed.

(** The Number value of a natural number is a natural number or the
    positive infinity. *)
Lemma to_number_natural (n : Z) :
  (0 <= n)%Z ->
  (exists z, to_number false n = Num z /\ (0 <= z)%Z) \/
  to_number false n = Infinity false.
Proof.
  intros Hn. unfold to_number.
  destruct (Z.eqb_spec n 0) as [->|Hnz]; [left; exists 0%Z; split; [reflexivity|lia]|].
  unfold round_magnitude.
  destruct (Z.ltb_spec n (2 ^ 53)); [left; exists n; split; [reflexivity|exact Hn]|].
  cbv zeta.
  match goal with
  | |- context [if ?c then None else Some ?v] =>
      destruct c; [now right|left; exists v; split; [reflexivity|]]
  end.
  apply Z.shiftl_nonneg.
  assert (Hq : (0 <= Z.shiftr n (Z.log2 n - 52))%Z) by now apply Z.shiftr_nonneg.
  match goal with |- context [if ?c then _ else _] => destruct c end; lia.
Qed.

End StringFacts.

(** ** The line and column of a local file link *)

Module LineColumn.

Import JS Services LocalFileLinkOpener Observations StringFacts Examples.

Lemma extract_loop_none (m : list (option str)) (base gc : nat) :
  forall todo i info,
    (forall k, k < todo -> truthy (at_index m (base + gc * (i + k))) = false) ->
    extract_loop m base gc i todo info = info.
Proof.
  induction todo as [|todo IH]; intros i info Hnone; [reflexivity|].
  cbn [extract_loop]. pose proof (Hnone 0 ltac:(lia)) as H0.
  rewrite Nat.add_0_r in H0. rewrite H0. apply IH.
  intros k Hk. replace (S i + k) with (i + S k) by lia. apply Hnone. lia.
Qed.

Lemma extract_loop_first (m : list (option str)) (base gc : nat) :
  forall j todo i info,
    j < todo ->
    (forall k, k < j -> truthy (at_index m (base + gc * (i + k))) = false) ->
    truthy (at_index m (base + gc * (i + j))) = true ->
    extract_loop m base gc i todo info
    = extract_loop m base gc (i + j) 1 info.
Proof.
  induction j as [|j IH]; intros todo i info Hlt Hnone Hhit.
  - destruct todo as [|todo]; [lia|]. rewrite Nat.add_0_r in *.
    cbn [extract_loop]. rewrite Hhit. reflexivity.
  - destruct todo as [|todo]; [lia|].
    cbn [extract_loop]. pose proof (Hnone 0 ltac:(lia)) as H0.
    rewrite Nat.add_0_r in H0. rewrite H0.
    replace (i + S j) with (S i + j) in * by lia.
    rewrite (IH todo (S i) info); [reflexivity|lia| |exact Hhit].
    intros k Hk. replace (S i + k) with (i + S k) by lia. apply Hnone. lia.
Qed.

(** [extractLineColumnInfo] in terms of the array of matches, for any
    grammar: line 1 and column 1 when the expression does not match or
    when no clause captured a line; otherwise the first clause, in the
    order of the clauses, whose line capture is not empty decides. *)
Lemma extract_by_captures
    (g : LinkGrammar) (os : OperatingSystem) (link : str) :
  (localLinkRegex_exec g os link = None ->
   extractLineColumnInfo g os link
   = {| lineNumber := Num 1; columnNumber := Num 1 |}) /\
  (forall m,
      localLinkRegex_exec g os link = Some m ->
      (forall i, i < lineAndColumnClause_length g ->
                 truthy (at_index m (lineMatchIndex g os i)) = false) ->
      extractLineColumnInfo g os link
      = {| lineNumber := Num 1; columnNumber := Num 1 |}) /\
  (forall m i L,
      localLinkRegex_exec g os link = Some m ->
      i < lineAndColumnClause_length g ->
      (forall j, j < i -> truthy (at_index m (lineMatchIndex g os j)) = false) ->
      at_index m (lineMatchIndex g os i) = Some L ->
      L <> [] -> all_digits L ->
      truthy (at_index m (lineMatchIndex g os i + 2)) = false ->
      extractLineColumnInfo g os link
      = {| lineNumber := to_number false (decimal L); columnNumber := Num 1 |}) /\
  (forall m i L C,
      localLinkRegex_exec g os link = Some m ->
      i < lineAndColumnClause_length g ->
      (forall j, j < i -> truthy (at_index m (lineMatchIndex g os j)) = false) ->
      at_index m (lineMatchIndex g os i) = Some L ->
      L <> [] -> all_digits L ->
      at_index m (lineMatchIndex g os i + 2) = Some C ->
      C <> [] -> all_digits C ->
      extractLineColumnInfo g os link
      = {| lineNumber := to_number false (decimal L); columnNumber := to_number false (decimal C) |}).
Proof.
  unfold extractLineColumnInfo, lineMatchIndex.
  split; [|split; [|split]].
  - intros ->. reflexivity.
  - intros m -> Hnone. apply extract_loop_none.
    intros k Hk. cbn [Nat.add]. now apply Hnone.
  - intros m i L -> Hi Hnone HL Hne Hd Hcol.
    rewrite (extract_loop_first m _ _ i); cbn [Nat.add]; try assumption.
    + cbn [extract_loop]. rewrite HL, Hcol.
      destruct L as [|c t]; [congruence|]. cbn [truthy].
      cbn [lineNumber columnNumber].
      rewrite parseInt_decimal; auto; congruence.
    + rewrite HL. destruct L; [congruence|reflexivity].
  - intros m i L C -> Hi Hnone HL Hne Hd HC HCne HCd.
    rewrite (extract_loop_first m _ _ i); cbn [Nat.add]; try assumption.
    + cbn [extract_loop]. rewrite HL, HC.
      destruct L as [|c t]; [congruence|].
      destruct C as [|c' t']; [congruence|]. cbn [truthy].
      cbn [lineNumber columnNumber].
      rewrite !parseInt_decimal; auto; congruence.
    + rewrite HL. destruct L; [congruence|reflexivity].
Qed.

Example extract_by_captures_example :
  extractLineColumnInfo (grammar_answering None) Linux (lit "a.ts")
  = {| lineNumber := Num 1; columnNumber := Num 1 |} /\
  extractLineColumnInfo (grammar_answering (Some matches_plain)) Linux
                        (lit "/a/b")
  = {| lineNumber := Num 1; columnNumber := Num 1 |} /\
  extractLineColumnInfo (grammar_answering (Some matches_line)) Linux
                        (lit "/a/b:42")
  = {| lineNumber := Num 42; columnNumber := Num 1 |} /\
  extractLineColumnInfo (grammar_answering (Some matches_line_column)) Linux
                        (lit "/a/b:42:7")
  = {| lineNumber := Num 42; columnNumber := Num 7 |}.
Proof.
  split; [|split; [|split]].
  - apply (extract_by_captures (grammar_answering None) Linux
             (lit "a.ts")).
    reflexivity.
  - apply (proj1 (proj2 (extract_by_captures
                           (grammar_answering (Some matches_plain)) Linux
                           (lit "/a/b")))
                 matches_plain eq_refl).
    intros i Hi. cbn in Hi.
    destruct i as [|[|i]]; [reflexivity|reflexivity|lia].
  - apply (proj1 (proj2 (proj2 (extract_by_captures
                                  (grammar_answering (Some matches_line)) Linux
                                  (lit "/a/b:42"))))
                 matches_line 1 (lit "42") eq_refl).
    + cbn. lia.
    + intros j Hj. assert (j = 0) as -> by lia. reflexivity.
    + reflexivity.
    + discriminate.
    + reflexivity.
    + reflexivity.
  - apply (proj2 (proj2 (proj2 (extract_by_captures
                                  (grammar_answering (Some matches_line_column))
                                  Linux (lit "/a/b:42:7"))))
                 matches_line_column 1 (lit "42") (lit "7") eq_refl).
    + cbn. lia.
    + intros j Hj. assert (j = 0) as -> by lia. reflexivity.
    + reflexivity.
    + discriminate.
    + reflexivity.
    + reflexivity.
    + discriminate.
    + reflexivity.
Qed.

End LineColumn.

(** ** The rewriting of a link against the directory of its line *)

Module CwdRewrite.

Import JS Services SearchLinkOpener Observations StringFacts Examples.

(** C6.  For a candidate without any separator character and a cwd hint
    that is present (a non-empty string), [_updateLinkWithRelativeCwd]
    returns the hint, the separator and the candidate, concatenated. *)
Theorem rewrite_bare_filename
    (env : Env) (y : Z) (candidate : str) (pathSeparator : ascii)
    (getCwdForLine : Z -> option str) (hint : str) :
  commandDetection env = Some getCwdForLine ->
  getCwdForLine y = Some hint ->
  hint <> [] ->
  ~ In pathSeparator candidate ->
  _updateLinkWithRelativeCwd env y candidate pathSeparator
  = Some (hint ++ [pathSeparator] ++ candidate).
Proof.
  intros Hcap Hcwd Hne Hsep. unfold _updateLinkWithRelativeCwd.
  rewrite Hcap, Hcwd. destruct hint as [|c t]; [congruence|].
  cbn [truthy negb]. rewrite (includes_false _ _ Hsep). reflexivity.
Qed.

Lemma rewrite_bare_filename_witness :
  _updateLinkWithRelativeCwd cwd_host 7 (lit "a.ts") "/"
  = Some (lit "/home/u/proj/a.ts").
Proof.
  apply (rewrite_bare_filename cwd_host 7 (lit "a.ts") "/"
           (fun _ => Some (lit "/home/u/proj")) (lit "/home/u/proj")).
  - reflexivity.
  - reflexivity.
  - discriminate.
  - cbn. intuition discriminate.
Defined.

End CwdRewrite.

(** ** The matcher *)

Module RegexFacts.

Import JS Regex Observations StringFacts.

Lemma flat_map_nil {A B} (f : A -> list B) (l : list A) :
  (forall x, In x l -> f x = []) -> flat_map f l = [].
Proof.
  induction l as [|x l IH]; intros H; [reflexivity|].
  cbn. rewrite (H x (or_introl eq_refl)). apply IH.
  intros y Hy. apply H. now right.
Qed.

(** *** The equations of the matcher *)

Lemma ms_Seq (r1 r2 : regex) (st : mstate) :
  ms (Seq r1 r2) st = flat_map (ms r2) (ms r1 st).
Proof. reflexivity. Qed.

Lemma ms_Opt (r : regex) (st : mstate) : ms (Opt r) st = ms r st ++ [st].
Proof. reflexivity. Qed.

Lemma ms_Star (r : regex) (st : mstate) :
  ms (Star r) st = iter_star (ms r) (S (List.length (rest st))) st.
Proof. reflexivity. Qed.

Lemma ms_Group (i : nat) (r : regex) (st : mstate) :
  ms (Group i r) st = map (set_cap i st) (ms r st).
Proof. reflexivity. Qed.

Lemma ms_Alt (r1 r2 : regex) (st : mstate) :
  ms (Alt r1 r2) st = ms r1 st ++ ms r2 st.
Proof. reflexivity. Qed.

Lemma ms_Chr_cons (p : ascii -> bool) (q : nat) (c : ascii) (t : str) cs :
  ms (Chr p) (MState q (c :: t) cs)
  = if p c then [MState (S q) t cs] else [].
Proof. reflexivity. Qed.

Lemma ms_Chr_nil (p : ascii -> bool) (q : nat) cs :
  ms (Chr p) (MState q [] cs) = [].
Proof. reflexivity. Qed.

Lemma ms_Eol_nil (q : nat) cs : ms Eol (MState q [] cs) = [MState q [] cs].
Proof. reflexivity. Qed.

Lemma iter_star_S (step : mstate -> list mstate) (fuel : nat) (st : mstate) :
  iter_star step (S fuel) st
  = flat_map (fun st' => if pos st <? pos st' then iter_star step fuel st'
                         else [])
             (step st) ++ [st].
Proof. reflexivity. Qed.

(** *** A literal word *)

Lemma ms_Word_prefix (w : str) (k : regex) :
  forall p t cs,
    ms (Word w k) (MState p (w ++ t) cs) = ms k (MState (p + List.length w) t cs).
Proof.
  induction w as [|c w IH]; intros p t cs.
  - cbn. now rewrite Nat.add_0_r.
  - cbn [Word ms app rest pos caps flat_map]. unfold chr_is at 1.
    rewrite Ascii.eqb_refl. cbn [flat_map]. rewrite app_nil_r, IH.
    cbn [List.length]. now rewrite Nat.add_succ_r.
Qed.

Lemma ms_Word_no_prefix (w : str) (k : regex) :
  forall st, starts_with w (rest st) = false -> ms (Word w k) st = [].
Proof.
  induction w as [|c w IH]; intros st Hno.
  - discriminate.
  - cbn [Word]. rewrite ms_Seq. destruct st as [p [|x t] cs]; [reflexivity|].
    rewrite ms_Chr_cons. unfold chr_is at 1. cbn [rest] in Hno.
    destruct (Ascii.eqb_spec c x) as [->|Hne]; [|reflexivity].
    cbn [flat_map]. rewrite app_nil_r. apply IH. cbn [rest].
    destruct (starts_with w t) eqn:E; [|reflexivity].
    apply starts_with_spec in E as [u ->].
    rewrite <- Hno. symmetry. apply starts_with_spec. now exists u.
Qed.

(** *** Runs of one character class *)

Lemma in_ms_Chr (p : ascii -> bool) (st st' : mstate) :
  In st' (ms (Chr p) st) ->
  exists c, rest st = c :: rest st' /\ p c = true /\
            pos st' = S (pos st) /\ caps st' = caps st.
Proof.
  cbn [ms]. destruct (rest st) as [|c t] eqn:Hr; [intros []|].
  destruct (p c) eqn:Hp; [|intros []].
  intros [<-|[]]. exists c. cbn. auto.
Qed.

Lemma in_ms_Eol (st st' : mstate) :
  In st' (ms Eol st) -> st' = st /\ rest st = [].
Proof.
  cbn [ms]. destruct (rest st); [|intros []]. intros [<-|[]]. now split.
Qed.

Lemma in_iter_star_Chr (p : ascii -> bool) :
  forall fuel st st',
    In st' (iter_star (ms (Chr p)) fuel st) ->
    exists d, forallb p d = true /\ rest st = d ++ rest st' /\
              pos st' = pos st + List.length d /\ caps st' = caps st.
Proof.
  induction fuel as [|fuel IH]; intros st st' Hin.
  - destruct Hin as [<-|[]]. exists []. cbn. auto.
  - cbn [iter_star] in Hin. apply in_app_or in Hin as [Hin|[<-|[]]].
    + apply in_flat_map in Hin as [st1 [H1 Hin]].
      apply in_ms_Chr in H1 as [c (Hr & Hp & Hpos & Hcaps)].
      destruct (pos st <? pos st1); [|destruct Hin].
      apply IH in Hin as [d (Hd & Hr' & Hpos' & Hcaps')].
      exists (c :: d). cbn [forallb List.length app].
      rewrite Hp, Hd, Hr, Hr', Hpos', Hpos, Hcaps', Hcaps.
      repeat split. lia.
    + exists []. cbn. auto.
Qed.

Lemma in_ms_Plus_Chr (p : ascii -> bool) (st st' : mstate) :
  In st' (ms (Plus (Chr p)) st) ->
  exists d, d <> [] /\ forallb p d = true /\ rest st = d ++ rest st' /\
            pos st' = pos st + List.length d /\ caps st' = caps st.
Proof.
  unfold Plus. cbn [ms]. intros Hin.
  apply in_flat_map in Hin as [st1 [H1 Hin]].
  apply (in_ms_Chr p) in H1 as [c (Hr & Hp & Hpos & Hcaps)].
  apply in_iter_star_Chr in Hin as [d (Hd & Hr' & Hpos' & Hcaps')].
  exists (c :: d). cbn [forallb List.length app].
  rewrite Hp, Hd, Hr, Hr', Hpos', Hpos, Hcaps', Hcaps.
  repeat split; [discriminate|lia].
Qed.

(** The first path of a greedy run reads the whole run. *)
Lemma iter_star_Chr_head (p : ascii -> bool) :
  forall d fuel q t cs,
    forallb p d = true ->
    match t with c :: _ => p c = false | [] => True end ->
    List.length d <= fuel ->
    exists tl,
      iter_star (ms (Chr p)) fuel (MState q (d ++ t) cs)
      = MState (q + List.length d) t cs :: tl.
Proof.
  induction d as [|c d IH]; intros fuel q t cs Hd Ht Hfuel.
  - cbn [app List.length]. rewrite Nat.add_0_r.
    destruct fuel as [|fuel]; [now exists []|].
    rewrite iter_star_S. destruct t as [|c t].
    + rewrite ms_Chr_nil. now exists [].
    + rewrite ms_Chr_cons, Ht. now exists [].
  - cbn [forallb] in Hd. apply andb_prop in Hd as [Hc Hd].
    destruct fuel as [|fuel]; [cbn in Hfuel; lia|].
    cbn [List.length] in Hfuel.
    cbn [app]. rewrite iter_star_S, ms_Chr_cons, Hc. cbn [flat_map pos].
    assert (Hlt : (q <? S q) = true) by (apply Nat.ltb_lt; lia).
    rewrite Hlt, app_nil_r.
    destruct (IH fuel (S q) t cs Hd Ht ltac:(lia)) as [tl Htl].
    rewrite Htl. cbn [app List.length]. rewrite Nat.add_succ_r.
    eexists. reflexivity.
Qed.

Lemma ms_Plus_Chr_head (p : ascii -> bool) (c : ascii) (d : str) :
  forall q t cs,
    forallb p (c :: d) = true ->
    match t with x :: _ => p x = false | [] => True end ->
    exists tl,
      ms (Plus (Chr p)) (MState q ((c :: d) ++ t) cs)
      = MState (q + List.length (c :: d)) t cs :: tl.
Proof.
  intros q t cs Hd Ht. cbn [forallb] in Hd. apply andb_prop in Hd as [Hc Hd].
  unfold Plus. rewrite ms_Seq. cbn [app]. rewrite ms_Chr_cons, Hc.
  cbn [flat_map]. rewrite app_nil_r, ms_Star. cbn [rest].
  destruct (iter_star_Chr_head p d (S (List.length (d ++ t))) (S q) t cs Hd Ht)
    as [tl Htl].
  { rewrite length_app. lia. }
  rewrite Htl. cbn [List.length]. rewrite Nat.add_succ_r. eexists. reflexivity.
Qed.

(** *** The bound on the iterations

    A path of the matcher reads the subject from left to right: the index
    grows by what was read.  An iteration that makes progress therefore
    shortens what is left, and the iterations allowed by [ms] for a star,
    one more than the length of what is left, are never used up: more
    would change nothing. *)

Lemma iter_star_offset (step : mstate -> list mstate) :
  (forall st st', In st' (step st) ->
                  pos st' + List.length (rest st')
                  = pos st + List.length (rest st)) ->
  forall fuel st st',
    In st' (iter_star step fuel st) ->
    pos st' + List.length (rest st') = pos st + List.length (rest st).
Proof.
  intros Hstep. induction fuel as [|fuel IH]; intros st st' Hin.
  - destruct Hin as [<-|[]]. reflexivity.
  - rewrite iter_star_S in Hin. apply in_app_or in Hin as [Hin|[<-|[]]].
    + apply in_flat_map in Hin as [st1 [H1 Hin]].
      destruct (pos st <? pos st1); [|destruct Hin].
      rewrite (IH _ _ Hin). now apply Hstep.
    + reflexivity.
Qed.

Lemma ms_offset (r : regex) :
  forall st st',
    In st' (ms r st) ->
    pos st' + List.length (rest st') = pos st + List.length (rest st).
Proof.
  induction r as [p| | |r1 IH1 r2 IH2|r IH|r IH|i r IH|r1 IH1 r2 IH2];
    intros st st' Hin.
  - apply in_ms_Chr in Hin as [c (Hr & _ & Hpos & _)].
    rewrite Hr, Hpos. cbn [List.length]. lia.
  - cbn [ms] in Hin. destruct (pos st =? 0); [|destruct Hin].
    destruct Hin as [<-|[]]. reflexivity.
  - apply in_ms_Eol in Hin as [-> _]. reflexivity.
  - rewrite ms_Seq in Hin. apply in_flat_map in Hin as [st1 [H1 Hin]].
    rewrite (IH2 _ _ Hin). now apply IH1.
  - rewrite ms_Opt in Hin. apply in_app_or in Hin as [Hin|[<-|[]]].
    + now apply IH.
    + reflexivity.
  - rewrite ms_Star in Hin. now apply (iter_star_offset (ms r) IH) in Hin.
  - rewrite ms_Group in Hin. apply in_map_iff in Hin as [st1 [<- Hin]].
    cbn [set_cap pos rest]. now apply IH.
  - rewrite ms_Alt in Hin. apply in_app_or in Hin as [Hin|Hin];
      [now apply IH1|now apply IH2].
Qed.

Lemma flat_map_ext_in {A B} (f g : A -> list B) (l : list A) :
  (forall x, In x l -> f x = g x) -> flat_map f l = flat_map g l.
Proof.
  induction l as [|x l IH]; intros H; [reflexivity|].
  cbn. rewrite (H x (or_introl eq_refl)), IH; [reflexivity|].
  intros y Hy. apply H. now right.
Qed.

Lemma iter_star_enough_fuel (r : regex) :
  forall n st m,
    List.length (rest st) <= n -> n <= m ->
    iter_star (ms r) m st = iter_star (ms r) n st.
Proof.
  induction n as [|n IH]; intros st m Hlen Hm.
  - destruct m as [|m]; [reflexivity|].
    rewrite iter_star_S. cbn [iter_star].
    rewrite flat_map_nil; [reflexivity|].
    intros st' Hin. apply ms_offset in Hin.
    destruct (Nat.ltb_spec (pos st) (pos st')); [lia|reflexivity].
  - destruct m as [|m]; [lia|]. rewrite !iter_star_S. f_equal.
    apply flat_map_ext_in. intros st' Hin. apply ms_offset in Hin.
    destruct (Nat.ltb_spec (pos st) (pos st')); [|reflexivity].
    apply IH; lia.
Qed.

Lemma ms_Star_any_fuel (r : regex) (st : mstate) (m : nat) :
  List.length (rest st) < m -> iter_star (ms r) m st = ms (Star r) st.
Proof.
  intros Hm. rewrite ms_Star. apply iter_star_enough_fuel; lia.
Qed.

(** *** The leftmost match *)

Lemma search_none (r : regex) :
  forall s p,
    (forall k, k <= List.length s -> ms r (MState (p + k) (skipn k s) []) = []) ->
    search r p s = None.
Proof.
  induction s as [|c s IH]; intros p Hall.
  - cbn [search]. pose proof (Hall 0 (le_n _)) as H0.
    rewrite Nat.add_0_r in H0. cbn [skipn] in H0. now rewrite H0.
  - cbn [search]. pose proof (Hall 0 ltac:(lia)) as H0.
    rewrite Nat.add_0_r in H0. cbn [skipn] in H0. rewrite H0.
    apply IH. intros k Hk. specialize (Hall (S k)).
    cbn [skipn List.length] in Hall. rewrite Nat.add_succ_r in Hall.
    apply Hall. lia.
Qed.

Lemma search_skip (r : regex) :
  forall pre s p,
    (forall k, k < List.length pre ->
               ms r (MState (p + k) (skipn k (pre ++ s)) []) = []) ->
    search r p (pre ++ s) = search r (p + List.length pre) s.
Proof.
  induction pre as [|c pre IH]; intros s p Hall.
  - cbn. now rewrite Nat.add_0_r.
  - cbn [app search]. pose proof (Hall 0 ltac:(cbn; lia)) as H0.
    rewrite Nat.add_0_r in H0. cbn [skipn app] in H0. rewrite H0.
    rewrite IH.
    + cbn [List.length]. now rewrite Nat.add_succ_r.
    + intros k Hk. specialize (Hall (S k)).
      cbn [skipn List.length app] in Hall. rewrite Nat.add_succ_r in Hall.
      apply Hall. lia.
Qed.

Lemma search_some (r : regex) :
  forall s p q st,
    search r p s = Some (q, st) ->
    exists k tl, q = p + k /\ k <= List.length s /\
                 ms r (MState q (skipn k s) []) = st :: tl.
Proof.
  induction s as [|c s IH]; intros p q st Hs; cbn [search] in Hs.
  - destruct (ms r (MState p [] [])) as [|st0 tl] eqn:Hms; [discriminate|].
    injection Hs as <- <-. exists 0, tl. rewrite Nat.add_0_r. cbn. auto.
  - destruct (ms r (MState p (c :: s) [])) as [|st0 tl] eqn:Hms.
    + apply IH in Hs as (k & tl & -> & Hk & Hms').
      exists (S k), tl. cbn [skipn List.length]. rewrite Nat.add_succ_r.
      repeat split; [lia|exact Hms'].
    + injection Hs as <- <-. exists 0, tl. rewrite Nat.add_0_r. cbn.
      repeat split; [lia|exact Hms].
Qed.

(** An expression anchored at the start matches at index 0 or nowhere. *)
Lemma search_Bol_later (r : regex) :
  forall s p, search (Seq Bol r) (S p) s = None.
Proof.
  intros s p. apply search_none. intros k _. reflexivity.
Qed.

Lemma replace_empty_Bol_no_match (r : regex) (s : str) :
  ms r (MState 0 s []) = [] -> replace_empty (Seq Bol r) s = s.
Proof.
  intros Hms. unfold replace_empty, exec.
  destruct s as [|c s]; cbn [search ms pos Nat.eqb flat_map];
    rewrite Hms; cbn [app]; [reflexivity|].
  now rewrite search_Bol_later.
Qed.

End RegexFacts.

(** ** The cleaning of the text of a link *)

Module Normalization.

Import JS Regex Services SearchLinkOpener Observations StringFacts RegexFacts
       Examples.

Lemma separator_not_dot (c : ascii) :
  is_separator c = true -> chr_is "." c = false.
Proof. by_cases_on_char c. Qed.

Lemma file_scheme_no_match (y : str) :
  starts_with (lit "file://") y = false ->
  replace_empty re_file_scheme y = y.
Proof.
  intros Hno. apply replace_empty_Bol_no_match.
  now apply ms_Word_no_prefix.
Qed.

Lemma leading_dots_no_match (y : str) :
  starts_with_dot_segment y = false ->
  replace_empty re_leading_dots y = y.
Proof.
  intros Hno. apply replace_empty_Bol_no_match.
  unfold Plus at 1. rewrite ms_Seq, ms_Group, ms_Seq.
  rewrite (flat_map_nil (ms (Chr _))); [reflexivity|].
  intros st' Hin.
  apply in_ms_Plus_Chr in Hin as [d (Hne & Hd & Hr & _ & _)].
  cbn [rest] in Hr. destruct st' as [q [|c t] cs]; [reflexivity|].
  rewrite ms_Chr_cons. fold (is_separator c).
  destruct (is_separator c) eqn:Hsep; [|reflexivity].
  exfalso. cbn [rest] in Hr. subst y.
  destruct (take_drop_while_app (chr_is ".") d (c :: t) Hd
              (separator_not_dot c Hsep)) as [Ht Hdrop].
  unfold starts_with_dot_segment in Hno. rewrite Ht, Hdrop in Hno.
  destruct d; congruence.
Qed.

Lemma in_suffix_no_match (y : str) :
  ends_with (lit ":in") y = false ->
  replace_empty re_in_suffix y = y.
Proof.
  intros Hno. unfold replace_empty, exec. rewrite search_none; [reflexivity|].
  intros k Hk. cbn [Nat.add]. unfold re_in_suffix.
  destruct (starts_with (lit ":in") (skipn k y)) eqn:E.
  - apply starts_with_spec in E as [t Ht]. rewrite Ht, ms_Word_prefix.
    destruct t as [|c t]; [|reflexivity].
    exfalso. rewrite app_nil_r in Ht.
    assert (Hy : ends_with (lit ":in") y = true).
    { apply ends_with_spec. exists (firstn k y). rewrite <- Ht.
      symmetry. apply firstn_skipn. }
    congruence.
  - now apply ms_Word_no_prefix.
Qed.

Lemma strip_folders_no_match (sep : ascii) (y : str) :
  forall folders,
    forallb (fun f => negb (starts_with (name f ++ [sep]) y)) folders = true ->
    fold_left (strip_folder sep) folders y = y.
Proof.
  induction folders as [|f fs IH]; intros Hall; [reflexivity|].
  cbn [forallb] in Hall. apply andb_prop in Hall as [Hf Hfs].
  cbn [fold_left]. unfold strip_folder at 2. unfold substring_to.
  unfold starts_with in Hf. rewrite length_app in Hf. cbn [List.length] in Hf.
  apply negb_true_iff in Hf. rewrite Hf. now apply IH.
Qed.

(** C1.  The [forEach] over the workspace folders goes on after a folder
    name was removed: with the folders [a] and [b], in this order, the
    text [a/b/c] loses the prefix [a/] and then the prefix [b/]. *)
Theorem forEach_strips_a_second_folder :
  fold_left (strip_folder "/") (workspace_folders two_folders_host)
            (lit "a/b/c") = lit "c" /\
  open_text two_folders_host (lit "a/b/c") = lit "c" /\
  open_text two_folders_host (lit "a/b/c") <> lit "b/c".
Proof.
  repeat split. vm_compute. discriminate.
Qed.

(** C8, as stated, fails: on a POSIX host without folders, cleaning
    [a:in:in] gives [a:in], and cleaning that gives [a]. *)
Lemma normalize_not_idempotent :
  open_text empty_host (lit "a:in:in") = lit "a:in" /\
  open_text empty_host (open_text empty_host (lit "a:in:in")) = lit "a" /\
  open_text empty_host (open_text empty_host (lit "a:in:in"))
    <> open_text empty_host (lit "a:in:in").
Proof.
  repeat split. vm_compute. discriminate.
Qed.

(** C8, amended.  Cleaning a second time changes nothing whenever the
    result of the first cleaning gives none of the five steps anything to
    do: it does not start with [file://], the path normalisation leaves
    it as it is, it does not start with a dot segment, it does not end
    with [:in], and no workspace folder name followed by the separator
    is a prefix of it. *)
Theorem normalize_idempotent_on_stable_result (env : Env) (x : str) :
  starts_with (lit "file://") (open_text env x) = false ->
  normalize (platform env) (open_text env x) = open_text env x ->
  starts_with_dot_segment (open_text env x) = false ->
  ends_with (lit ":in") (open_text env x) = false ->
  forallb (fun f => negb (starts_with
                            (name f ++ [pathSeparator (platform env)])
                            (open_text env x)))
          (workspace_folders env) = true ->
  open_text env (open_text env x) = open_text env x.
Proof.
  intros Hfile Hnorm Hdots Hin Hfolders.
  set (y := open_text env x) in *.
  unfold open_text at 1.
  rewrite (file_scheme_no_match y Hfile), Hnorm.
  rewrite (leading_dots_no_match y Hdots), (in_suffix_no_match y Hin).
  now apply strip_folders_no_match.
Qed.

Lemma normalize_idempotent_on_stable_result_witness :
  open_text two_folders_host (open_text two_folders_host (lit "./a/lib/foo.rb:in"))
  = open_text two_folders_host (lit "./a/lib/foo.rb:in").
Proof.
  apply (normalize_idempotent_on_stable_result two_folders_host
           (lit "./a/lib/foo.rb:in")); reflexivity.
Defined.

End Normalization.

(** ** The selection handed to the editor *)

Module Selection.

Import JS Regex Services SearchLinkOpener Observations StringFacts RegexFacts
       Effects Examples.

Lemma chr_is_eq (c x : ascii) : chr_is c x = true -> x = c.
Proof. unfold chr_is. intros H. apply Ascii.eqb_eq in H. congruence. Qed.

(** What the part [(:(\d+))?$] of the expression accepts. *)
Lemma in_ms_column_part (st st' : mstate) :
  In st' (ms (Seq (Opt (Group 2 (Seq (Chr (chr_is ":"))
                                      (Group 3 (Plus digit)))))
                  Eol) st) ->
  (rest st = [] \/
   exists d2, rest st = ":"%char :: d2 /\ d2 <> [] /\ all_digits d2) /\
  capture 1 (caps st') = capture 1 (caps st).
Proof.
  rewrite ms_Seq, ms_Opt, ms_Group, ms_Seq. intros Hin.
  apply in_flat_map in Hin as [st3 [H3 Hin]].
  apply in_ms_Eol in Hin as [-> Hend].
  apply in_app_or in H3 as [H3|[<-|[]]].
  - apply in_map_iff in H3 as [sy [<- Hy]].
    apply in_flat_map in Hy as [sz [Hz Hy]].
    apply in_ms_Chr in Hz as [c (Hr & Hc & _ & Hcaps)].
    apply chr_is_eq in Hc. subst c.
    rewrite ms_Group in Hy. apply in_map_iff in Hy as [sw [<- Hw]].
    apply in_ms_Plus_Chr in Hw as [d2 (Hne & Hd & Hr' & _ & Hcaps')].
    cbn [set_cap rest caps capture Nat.eqb] in *.
    rewrite Hend, app_nil_r in Hr'. rewrite Hcaps', Hcaps.
    split; [|reflexivity]. right. exists d2. rewrite Hr, Hr'. auto.
  - split; [now left|reflexivity].
Qed.


(** What [/:(\d+)?(:(\d+))?$/] accepts at a given index, and what its
    first group holds then. *)
Lemma line_column_sound (q : nat) (s : str) (st' : mstate) :
  In st' (ms re_line_column (MState q s [])) ->
  exists d1 x,
    s = ":"%char :: d1 ++ x /\ all_digits d1 /\
    (x = [] \/ exists d2, x = ":"%char :: d2 /\ d2 <> [] /\ all_digits d2) /\
    capture 1 (caps st') = match d1 with [] => None | _ :: _ => Some d1 end.
Proof.
  unfold re_line_column. rewrite ms_Seq. intros Hin.
  apply in_flat_map in Hin as [st1 [H1 Hin]].
  apply in_ms_Chr in H1 as [c (Hr & Hc & Hpos & Hcaps)].
  apply chr_is_eq in Hc. subst c. cbn [rest pos caps] in Hr, Hpos, Hcaps.
  rewrite ms_Seq in Hin. apply in_flat_map in Hin as [st2 [H2 Hin]].
  apply in_ms_column_part in Hin as [Hx Hcap].
  rewrite ms_Opt, ms_Group in H2. apply in_app_or in H2 as [H2|[<-|[]]].
  - apply in_map_iff in H2 as [sx [<- Hsx]].
    apply in_ms_Plus_Chr in Hsx as [d1 (Hne & Hd & Hr' & Hpos' & Hcaps')].
    cbn [set_cap rest caps capture Nat.eqb] in *.
    exists d1, (rest sx). rewrite Hr, Hr'. repeat split; auto.
    rewrite Hcap. replace (pos sx - pos st1) with (List.length d1) by lia.
    rewrite Hr', firstn_app, firstn_all, Nat.sub_diag. cbn [firstn].
    rewrite app_nil_r. destruct d1; [congruence|reflexivity].
  - exists [], (rest st1). rewrite Hr. repeat split; auto.
    rewrite Hcap, Hcaps. reflexivity.
Qed.











End Selection.

(** ** Scenarios *)

Module Scenarios.

Import JS Regex Services LocalFileLinkOpener SearchLinkOpener Observations
       Posix Examples.

(** The name of a workspace folder is removed from the front of a link. *)
Example folder_prefix_is_stripped :
  open_text one_result_host (lit "proj/src/a.ts") = lit "src/a.ts".
Proof. reflexivity. Qed.

(** A link with a line and a column, found once by the search, is opened
    at that line and column. *)
Example one_search_result_is_opened :
  run (open one_result_host (link_of "src/app.ts:42:7"))
  = (Ok tt,
     [EvFileSearch (search_query one_result_host (lit "src/app.ts"));
      EvOpenEditor
        {| resource := URI_from file (lit "/home/u/proj/src/app.ts");
           options :=
             {| pinned := true;
                revealIfOpened := true;
                selection :=
                  Some {| startLineNumber := Num 42;
                          startColumn := Num 7 |} |} |}]).
Proof. reflexivity. Qed.

(** Two search results are no exact match. *)
Example two_search_results_fall_back :
  run (open two_results_host (link_of "app.ts"))
  = (Ok tt,
     [EvFileSearch (search_query two_results_host (lit "app.ts"));
      EvQuickAccess (lit "app.ts")]).
Proof. reflexivity. Qed.

(** The directory of the line is put in front of a bare file name, and
    the segments of a longer link are compared with the reversed segments
    of the directory, index by index. *)
Example cwd_rewrites :
  open_matchLink cwd_host (link_of "a.ts:3") = lit "/home/u/proj/a.ts:3" /\
  _updateLinkWithRelativeCwd cwd_host 0 (lit "proj/a.ts") "/"
  = Some (lit "/home/u/proj/a.ts") /\
  _updateLinkWithRelativeCwd cwd_host 0 (lit "src/proj/a.ts") "/"
  = Some (lit "/home/u/proj/src/proj/a.ts").
Proof. repeat split. Qed.

(** The path normalisation of a POSIX host. *)
Example posix_normalize_examples :
  posix_normalize (lit "./lib/foo.rb:in") = lit "lib/foo.rb:in" /\
  posix_normalize (lit "a/../b//c/") = lit "b/c/" /\
  posix_normalize (lit "../../a/./b") = lit "../../a/b" /\
  posix_normalize (lit "/../a") = lit "/a" /\
  posix_normalize [] = lit ".".
Proof. repeat split. Qed.

(** The expressions of [open] on some texts. *)
Example expressions_of_open :
  replace_empty re_file_scheme (lit "file:///a/b") = lit "a/b" /\
  replace_empty re_file_scheme (lit "file://a/b") = lit "a/b" /\
  replace_empty re_leading_dots (lit "../../a/./b") = lit "a/./b" /\
  replace_empty re_in_suffix (lit "foo.rb:12:in") = lit "foo.rb:12" /\
  replace_empty re_line_column_suffix (lit "a.ts:1:2") = lit "a.ts" /\
  replace_empty re_line_column_suffix (lit "a.ts:1:2:3") = lit "a.ts:1" /\
  match_groups re_line_column 3 (lit "a.ts:1:2")
  = Some [Some (lit "1"); Some (lit ":2"); Some (lit "2")] /\
  match_groups re_line_column 3 (lit "a.ts::5")
  = Some [None; Some (lit ":5"); Some (lit "5")] /\
  match_groups re_line_column 3 (lit "a.ts") = None.
Proof. repeat split. Qed.

End Scenarios.

(** ** What the openers call, and how they end *)

Module Outcomes.

Import JS Regex Services LocalFileLinkOpener SearchLinkOpener Observations
       Shapes Effects Examples.

(** X1.  [_getExactMatch] calls the file service at most once and the
    search service at most once, the stat before the search, and nothing
    else; a path that is not absolute is never statted; and a resource it
    returns is the statted resource or the only result of the search. *)
Theorem getExactMatch_call_discipline (env : Env) (sanitizedLink link : str) :
  (snd (run (_getExactMatch env sanitizedLink link))
     = [EvResolve (stat_resource env sanitizedLink)] \/
   snd (run (_getExactMatch env sanitizedLink link))
     = [EvFileSearch (search_query env sanitizedLink)] \/
   snd (run (_getExactMatch env sanitizedLink link))
     = [EvResolve (stat_resource env sanitizedLink);
        EvFileSearch (search_query env sanitizedLink)]) /\
  (In (EvResolve (stat_resource env sanitizedLink))
      (snd (run (_getExactMatch env sanitizedLink link)))
   <-> isAbsolute (platform env) sanitizedLink = true) /\
  (forall u,
      fst (run (_getExactMatch env sanitizedLink link)) = Ok (Some u) ->
      (u = stat_resource env sanitizedLink /\
       isAbsolute (platform env) sanitizedLink = true) \/
      searchService_fileSearch env (search_query env sanitizedLink) = Ok [u]).
Proof.
  rewrite getExactMatch_run. unfold search_answer.
  destruct (isAbsolute (platform env) sanitizedLink).
  - destruct (fileService_resolve env _) as [st|e]; [destruct (isFile st)|];
      cbn [fst snd].
    + repeat split; auto.
      * intros _. now left.
      * intros u [= <-]. left. now split.
    + repeat split; auto.
      * intros _. now left.
      * intros u Hu. right.
        destruct (searchService_fileSearch env _) as [[|r [|r' rs]]|e];
          congruence.
    + repeat split; auto.
      * intros _. now left.
      * intros u Hu. discriminate.
  - cbn [fst snd]. repeat split; auto.
    + intros [H|[]]. discriminate.
    + discriminate.
    + intros u Hu. right.
      destruct (searchService_fileSearch env _) as [[|r [|r' rs]]|e];
        congruence.
Qed.

Lemma getExactMatch_call_discipline_witness :
  (URI_from file (lit "/home/u/proj/src/a.ts")
   = stat_resource one_result_host (lit "src/a.ts") /\
   isAbsolute (platform one_result_host) (lit "src/a.ts") = true) \/
  searchService_fileSearch one_result_host
    (search_query one_result_host (lit "src/a.ts"))
  = Ok [URI_from file (lit "/home/u/proj/src/a.ts")].
Proof.
  apply (proj2 (proj2 (getExactMatch_call_discipline one_result_host
                         (lit "src/a.ts") (lit "src/a.ts:3")))).
  reflexivity.
Defined.

Lemma getExactMatch_trace_quiet (env : Env) (sanitizedLink link : str) :
  forall ev, In ev (snd (run (_getExactMatch env sanitizedLink link))) ->
             (forall t, ev <> EvQuickAccess t) /\
             (forall i, ev <> EvOpenEditor i).
Proof.
  intros ev Hin. rewrite getExactMatch_run in Hin.
  destruct (isAbsolute (platform env) sanitizedLink);
    [destruct (fileService_resolve env _) as [st|e]; [destruct (isFile st)|]|];
    cbn [snd In] in Hin; intuition (subst; discriminate).
Qed.

(** X2.  [open] ends in one of two ways.  Either the editor was opened
    on an exact match and accepted it: [open] returns normally and the
    quick access is not shown.  Or the quick access is shown, once, as
    the last call, with the cleaned text, and [open] returns what it
    returns.  An error of the stat, of the search or of the editor never
    reaches the caller. *)
Theorem open_ends_in_editor_or_quick_access
    (env : Env) (lk : ITerminalSimpleLink) :
  (exists tr r,
      run (open env lk)
      = (Ok tt, tr ++ [EvOpenEditor (editor_input r (open_matchLink env lk))])
      /\ editorService_openEditor env (editor_input r (open_matchLink env lk))
         = Ok tt
      /\ forall t, ~ In (EvQuickAccess t)
                        (tr ++ [EvOpenEditor
                                  (editor_input r (open_matchLink env lk))]))
  \/
  (exists tr,
      run (open env lk)
      = (quickAccess_show env (open_text env (text lk)),
         tr ++ [EvQuickAccess (open_text env (text lk))])
      /\ forall t, ~ In (EvQuickAccess t) tr).
Proof.
  rewrite open_run. cbv zeta.
  pose proof (getExactMatch_trace_quiet env (open_sanitizedLink env lk)
                (open_matchLink env lk)) as Hquiet.
  destruct (run (_getExactMatch env (open_sanitizedLink env lk)
                                (open_matchLink env lk)))
    as [[[r|]|e] tr]; cbn [snd] in Hquiet.
  - destruct (editorService_openEditor env _) as [[]|e] eqn:Hed.
    + left. exists tr, r. repeat split; auto.
      intros t Hin. apply in_app_or in Hin as [Hin|[Hin|[]]].
      * apply Hquiet in Hin as [Hq _]. now apply (Hq t).
      * discriminate.
    + right. exists (tr ++ [EvOpenEditor (editor_input r (open_matchLink env lk))]).
      rewrite <- app_assoc. split; [reflexivity|].
      intros t Hin. apply in_app_or in Hin as [Hin|[Hin|[]]].
      * apply Hquiet in Hin as [Hq _]. now apply (Hq t).
      * discriminate.
  - right. exists tr. split; [reflexivity|].
    intros t Hin. apply Hquiet in Hin as [Hq _]. now apply (Hq t).
  - right. exists tr. split; [reflexivity|].
    intros t Hin. apply Hquiet in Hin as [Hq _]. now apply (Hq t).
Qed.

(** X3.  [open] can only fail as the quick access fails: when showing the
    cleaned text in the quick access succeeds, [open] returns normally,
    whatever the file service, the search service and the editor do. *)
Theorem open_fails_only_with_quick_access
    (env : Env) (lk : ITerminalSimpleLink) :
  quickAccess_show env (open_text env (text lk)) = Ok tt ->
  fst (run (open env lk)) = Ok tt.
Proof.
  intros Hshow. rewrite open_run. cbv zeta.
  destruct (run (_getExactMatch env (open_sanitizedLink env lk)
                                (open_matchLink env lk)))
    as [[[r|]|e] tr]; [destruct (editorService_openEditor env _)| |];
    cbn [fst]; auto.
Qed.

Lemma open_fails_only_with_quick_access_witness :
  fst (run (open editor_fails_host (link_of "proj/src/a.ts:3"))) = Ok tt.
Proof.
  apply (open_fails_only_with_quick_access editor_fails_host
           (link_of "proj/src/a.ts:3")).
  reflexivity.
Defined.

End Outcomes.

(** ** The two direct openers *)

Module DirectOpeners.

Import JS Services LocalFileLinkOpener Observations Shapes Effects Examples.

(** X4.  [TerminalLocalFileLinkOpener.open] calls the editor exactly when
    the link has a resolved URI.  Without one it throws its own error
    and calls nothing.  With one it opens that URI once, pinned and
    revealed if opened, with a selection that is always present: the
    line and column of [extractLineColumnInfo], line 1 and column 1 when
    the expression does not match the text; and it returns what the
    editor returns, an error of the editor included. *)
Theorem file_link_open_behaviour
    (g : LinkGrammar) (os : OperatingSystem)
    (openEditor : IResourceEditorInput -> result unit)
    (link : ITerminalSimpleLink) :
  (link_uri link = None ->
   run (FileLinkOpener.open g os openEditor link)
   = (Throw (Err (lit "Tried to open file link without a resolved URI")),
      [])) /\
  (forall u,
      link_uri link = Some u ->
      exists line column,
        extractLineColumnInfo g os (text link)
          = {| lineNumber := line; columnNumber := column |} /\
        (localLinkRegex_exec g os (text link) = None ->
         line = Num 1 /\ column = Num 1) /\
        run (FileLinkOpener.open g os openEditor link)
        = (openEditor
             {| resource := u;
                options :=
                  {| pinned := true;
                     revealIfOpened := true;
                     selection :=
                       Some {| startLineNumber := line;
                               startColumn := column |} |} |},
           [EvOpenEditor
              {| resource := u;
                 options :=
                   {| pinned := true;
                      revealIfOpened := true;
                      selection :=
                        Some {| startLineNumber := line;
                                startColumn := column |} |} |}])).
Proof.
  unfold FileLinkOpener.open. split.
  - intros ->. reflexivity.
  - intros u ->.
    destruct (extractLineColumnInfo g os (text link)) as [line column] eqn:E.
    exists line, column. split; [reflexivity|]. split; [|reflexivity].
    intros Hnone. unfold extractLineColumnInfo in E. rewrite Hnone in E.
    split; congruence.
Qed.

Lemma file_link_open_behaviour_witness :
  run (FileLinkOpener.open (grammar_answering None) Linux
         (fun _ => Throw (Err (lit "cannot open")))
         (resolved_link "a.ts" None))
  = (Throw (Err (lit "Tried to open file link without a resolved URI")), [])
  /\
  exists line column,
    extractLineColumnInfo (grammar_answering None) Linux (lit "a.ts")
      = {| lineNumber := line; columnNumber := column |} /\
    (localLinkRegex_exec (grammar_answering None) Linux (lit "a.ts") = None ->
     line = Num 1 /\ column = Num 1) /\
    run (FileLinkOpener.open (grammar_answering None) Linux
           (fun _ => Throw (Err (lit "cannot open")))
           (resolved_link "a.ts" (Some (URI_from file (lit "/w/a.ts")))))
    = (Throw (Err (lit "cannot open")),
       [EvOpenEditor
          {| resource := URI_from file (lit "/w/a.ts");
             options :=
               {| pinned := true;
                  revealIfOpened := true;
                  selection :=
                    Some {| startLineNumber := line;
                            startColumn := column |} |} |}]).
Proof.
  split.
  - apply (file_link_open_behaviour (grammar_answering None) Linux
             (fun _ => Throw (Err (lit "cannot open")))
             (resolved_link "a.ts" None)).
    reflexivity.
  - apply (proj2 (file_link_open_behaviour (grammar_answering None) Linux
                    (fun _ => Throw (Err (lit "cannot open")))
                    (resolved_link "a.ts"
                       (Some (URI_from file (lit "/w/a.ts")))))
                 (URI_from file (lit "/w/a.ts")) eq_refl).
Defined.

(** X5.  [TerminalLocalFolderInWorkspaceLinkOpener.open] runs a command
    exactly when the link has a resolved URI: without one it throws its
    own error and runs nothing; with one it runs [revealInExplorer] on
    that URI, once, and returns what the command returns. *)
Theorem folder_link_open_behaviour
    (executeCommand : str -> URI -> result unit)
    (link : ITerminalSimpleLink) :
  (link_uri link = None <->
   snd (FolderLinkOpener.open executeCommand link) = []) /\
  (link_uri link = None ->
   fst (FolderLinkOpener.open executeCommand link)
   = Throw (Err (lit
       "Tried to open folder in workspace link without a resolved URI"))) /\
  (forall u,
      link_uri link = Some u ->
      FolderLinkOpener.open executeCommand link
      = (executeCommand (lit "revealInExplorer") u,
         [FolderLinkOpener.EvExecuteCommand (lit "revealInExplorer") u])).
Proof.
  unfold FolderLinkOpener.open.
  destruct (link_uri link) as [u|]; cbn [fst snd]; repeat split;
    try discriminate; try reflexivity.
  intros u' [= <-]. reflexivity.
Qed.

Lemma folder_link_open_behaviour_witness :
  fst (FolderLinkOpener.open (fun _ _ => Ok tt) (resolved_link "src" None))
  = Throw (Err (lit
      "Tried to open folder in workspace link without a resolved URI")) /\
  FolderLinkOpener.open (fun _ _ => Ok tt)
    (resolved_link "src" (Some (URI_from file (lit "/w/src"))))
  = (Ok tt,
     [FolderLinkOpener.EvExecuteCommand (lit "revealInExplorer")
        (URI_from file (lit "/w/src"))]).
Proof.
  split.
  - apply (folder_link_open_behaviour (fun _ _ => Ok tt)
             (resolved_link "src" None)).
    reflexivity.
  - apply (proj2 (proj2 (folder_link_open_behaviour (fun _ _ => Ok tt)
                           (resolved_link "src"
                              (Some (URI_from file (lit "/w/src"))))))
                 (URI_from file (lit "/w/src")) eq_refl).
Defined.

End DirectOpeners.

(** ** What the expressions of [open] remove *)

Module Expressions.

Import JS Regex Services SearchLinkOpener Observations Shapes StringFacts
       RegexFacts Normalization.

Lemma search_head (r : regex) (p : nat) (s : str) (st : mstate)
    (tl : list mstate) :
  ms r (MState p s []) = st :: tl -> search r p s = Some (p, st).
Proof.
  intros H. destruct s; cbn [search]; now rewrite H.
Qed.

Lemma replace_file_scheme (s : str) :
  replace_empty re_file_scheme s
  = if starts_with (lit "file://") s then
      match skipn 7 s with
      | c :: t => if chr_is "/" c then t else c :: t
      | [] => []
      end
    else s.
Proof.
  destruct (starts_with (lit "file://") s) eqn:E.
  - apply starts_with_spec in E as [t ->].
    change (skipn 7 (lit "file://" ++ t)) with t.
    unfold replace_empty, exec, re_file_scheme.
    assert (Hms : ms (Seq Bol (Word (lit "file://") (Opt (Chr (chr_is "/")))))
                     (MState 0 (lit "file://" ++ t) [])
                  = ms (Opt (Chr (chr_is "/"))) (MState 7 t [])).
    { rewrite ms_Seq. cbn [ms pos Nat.eqb flat_map].
      rewrite app_nil_r. apply (ms_Word_prefix (lit "file://")). }
    rewrite ms_Opt in Hms. destruct t as [|c t].
    + rewrite ms_Chr_nil in Hms. cbn [app] in Hms.
      rewrite (search_head _ _ _ _ _ Hms). reflexivity.
    + rewrite ms_Chr_cons in Hms. destruct (chr_is "/" c);
        cbn [app] in Hms; rewrite (search_head _ _ _ _ _ Hms); reflexivity.
  - now apply file_scheme_no_match.
Qed.

(** X6.  The first replacement of [open] removes a leading [file://]
    together with one slash that follows it, and changes no other
    text. *)
Theorem file_scheme_removed (s : str) :
  replace_empty re_file_scheme s
  = if starts_with (lit "file://") s then
      match skipn 7 s with
      | c :: t => if chr_is "/" c then t else c :: t
      | [] => []
      end
    else s.
Proof. exact (replace_file_scheme s). Qed.

Lemma replace_in_suffix (s : str) :
  replace_empty re_in_suffix s
  = if ends_with (lit ":in") s then firstn (List.length s - 3) s else s.
Proof.
  destruct (ends_with (lit ":in") s) eqn:E.
  - apply ends_with_spec in E as [t ->].
    rewrite length_app. change (List.length (lit ":in")) with 3.
    rewrite Nat.add_sub, firstn_app, firstn_all, Nat.sub_diag.
    cbn [firstn]. rewrite app_nil_r.
    unfold replace_empty, exec. rewrite search_skip.
    + cbn [Nat.add].
      assert (Hms : ms re_in_suffix (MState (List.length t) (lit ":in") [])
                    = [MState (List.length t + 3) [] []]).
      { unfold re_in_suffix.
        rewrite <- (app_nil_r (lit ":in")) at 2.
        now rewrite ms_Word_prefix. }
      rewrite (search_head _ _ _ _ _ Hms).
      rewrite firstn_app, firstn_all, Nat.sub_diag. cbn [firstn rest].
      now rewrite !app_nil_r.
    + intros k Hk. cbn [Nat.add]. unfold re_in_suffix.
      rewrite skipn_app. replace (k - List.length t) with 0 by lia.
      cbn [skipn].
      destruct (starts_with (lit ":in") (skipn k t ++ lit ":in")) eqn:E.
      * apply starts_with_spec in E as [u Hu]. rewrite Hu, ms_Word_prefix.
        destruct u as [|c u]; [|reflexivity]. exfalso.
        apply (f_equal (@List.length ascii)) in Hu.
        rewrite !length_app, length_skipn in Hu. cbn in Hu. lia.
      * now apply ms_Word_no_prefix.
  - now apply in_suffix_no_match.
Qed.

(** X7.  The third replacement of [open] removes one final [:in], and
    changes no text that does not end with it. *)
Theorem in_suffix_removed (s : str) :
  replace_empty re_in_suffix s
  = if ends_with (lit ":in") s then firstn (List.length s - 3) s else s.
Proof. exact (replace_in_suffix s). Qed.

(** *** The leading dot segments *)

Lemma ms_dot_segment_none (q : nat) (t : str) (cs : list (nat * str)) :
  starts_with_dot_segment t = false ->
  ms (Group 1 (Seq (Plus (Chr (chr_is ".")))
                   (Chr (fun c => chr_is "\" c || chr_is "/" c))))
     (MState q t cs) = [].
Proof.
  intros Hno. rewrite ms_Group, ms_Seq.
  rewrite (flat_map_nil (ms (Chr _))); [reflexivity|].
  intros st' Hin.
  apply in_ms_Plus_Chr in Hin as [d (Hne & Hd & Hr & _ & _)].
  cbn [rest] in Hr. destruct st' as [q' [|c u] cs']; [reflexivity|].
  rewrite ms_Chr_cons. fold (is_separator c).
  destruct (is_separator c) eqn:Hsep; [|reflexivity].
  exfalso. cbn [rest] in Hr. subst t.
  destruct (take_drop_while_app (chr_is ".") d (c :: u) Hd
              (separator_not_dot c Hsep)) as [Ht Hdrop].
  unfold starts_with_dot_segment in Hno. rewrite Ht, Hdrop in Hno.
  destruct d; congruence.
Qed.

Lemma ms_dot_segment_head (q : nat) (d : str) (c : ascii) (u : str)
    (cs : list (nat * str)) :
  is_dot_segment (d, c) = true ->
  exists cs' tl,
    ms (Group 1 (Seq (Plus (Chr (chr_is ".")))
                     (Chr (fun c => chr_is "\" c || chr_is "/" c))))
       (MState q (d ++ c :: u) cs)
    = MState (q + List.length d + 1) u cs' :: tl.
Proof.
  unfold is_dot_segment. cbn [fst snd]. intros Hseg.
  destruct d as [|x d]; [discriminate|].
  apply andb_prop in Hseg as [Hd Hsep].
  rewrite ms_Group, ms_Seq.
  destruct (ms_Plus_Chr_head (chr_is ".") x d q (c :: u) cs Hd
              (separator_not_dot c Hsep)) as [tl Htl].
  rewrite Htl. cbn [flat_map]. rewrite ms_Chr_cons.
  fold (is_separator c). rewrite Hsep. cbn [app map].
  unfold set_cap at 1. cbn [pos rest caps].
  replace (S (q + List.length (x :: d))) with (q + List.length (x :: d) + 1)
    by lia.
  eexists. eexists. reflexivity.
Qed.

Lemma segments_text_length (segs : list (str * ascii)) :
  List.length segs <= List.length (segments_text segs).
Proof.
  induction segs as [|[d c] segs IH]; [apply le_n|].
  cbn [segments_text List.length]. rewrite length_app. cbn [List.length]. lia.
Qed.

Lemma iter_star_dot_segments_head :
  forall segs fuel q t cs,
    forallb is_dot_segment segs = true ->
    starts_with_dot_segment t = false ->
    List.length segs <= fuel ->
    exists cs' tl,
      iter_star
        (ms (Group 1 (Seq (Plus (Chr (chr_is ".")))
                          (Chr (fun c => chr_is "\" c || chr_is "/" c)))))
        fuel (MState q (segments_text segs ++ t) cs)
      = MState (q + List.length (segments_text segs)) t cs' :: tl.
Proof.
  induction segs as [|[d c] segs IH]; intros fuel q t cs Hsegs Ht Hfuel.
  - cbn [segments_text app List.length]. rewrite Nat.add_0_r.
    destruct fuel as [|fuel]; [now exists cs, []|].
    rewrite iter_star_S, (ms_dot_segment_none q t cs Ht). now exists cs, [].
  - cbn [forallb] in Hsegs. apply andb_prop in Hsegs as [Hseg Hsegs].
    destruct fuel as [|fuel]; [cbn in Hfuel; lia|].
    cbn [List.length] in Hfuel.
    cbn [segments_text]. rewrite <- app_assoc. cbn [app].
    rewrite iter_star_S.
    destruct (ms_dot_segment_head q d c (segments_text segs ++ t) cs Hseg)
      as (cs1 & tl1 & Hhead).
    rewrite Hhead. cbn [flat_map pos].
    assert (Hlt : (q <? q + List.length d + 1) = true)
      by (apply Nat.ltb_lt; lia).
    rewrite Hlt.
    destruct (IH fuel (q + List.length d + 1) t cs1 Hsegs Ht ltac:(lia))
      as (cs' & tl & Htl).
    rewrite Htl. cbn [app]. rewrite length_app. cbn [List.length].
    replace (q + (List.length d + S (List.length (segments_text segs))))
      with (q + List.length d + 1 + List.length (segments_text segs)) by lia.
    eexists. eexists. reflexivity.
Qed.

(** X8.  The second replacement of [open] removes the whole run of
    leading dot segments ([./], [../], [.\], [...\] and the like),
    however many there are, and nothing after it. *)
Theorem leading_dot_segments_removed (segs : list (str * ascii)) (t : str) :
  forallb is_dot_segment segs = true ->
  starts_with_dot_segment t = false ->
  replace_empty re_leading_dots (segments_text segs ++ t) = t.
Proof.
  intros Hsegs Ht. destruct segs as [|[d c] segs].
  - now apply leading_dots_no_match.
  - cbn [forallb] in Hsegs. apply andb_prop in Hsegs as [Hseg Hsegs].
    cbn [segments_text]. rewrite <- app_assoc. cbn [app].
    unfold replace_empty, exec, re_leading_dots.
    destruct (ms_dot_segment_head 0 d c (segments_text segs ++ t) [] Hseg)
      as (cs1 & tl1 & Hhead).
    destruct (iter_star_dot_segments_head segs
                (S (List.length (segments_text segs ++ t)))
                (0 + List.length d + 1) t cs1 Hsegs Ht)
      as (cs' & tl & Htl).
    { rewrite length_app. pose proof (segments_text_length segs). lia. }
    assert (Hms : exists tl',
               ms (Seq Bol
                     (Plus (Group 1
                              (Seq (Plus (Chr (chr_is ".")))
                                   (Chr (fun c => chr_is "\" c || chr_is "/" c))))))
                  (MState 0 (d ++ c :: segments_text segs ++ t) [])
               = MState (0 + List.length d + 1
                         + List.length (segments_text segs)) t cs' :: tl').
    { rewrite ms_Seq. cbn [ms pos Nat.eqb flat_map]. rewrite app_nil_r.
      unfold Plus at 1. rewrite ms_Seq, Hhead. cbn [flat_map].
      rewrite ms_Star. cbn [rest]. rewrite Htl. cbn [app].
      eexists. reflexivity. }
    destruct Hms as [tl' Hms]. rewrite (search_head _ _ _ _ _ Hms).
    reflexivity.
Qed.

Lemma leading_dot_segments_removed_witness :
  replace_empty re_leading_dots (lit "../.\lib/./foo.rb") = lit "lib/./foo.rb".
Proof.
  apply (leading_dot_segments_removed
           [(lit "..", "/"%char); (lit ".", "\"%char)] (lit "lib/./foo.rb"));
    reflexivity.
Defined.

End Expressions.

(** ** The position suffix of a link *)

Module PositionSuffix.

Import JS Regex Services SearchLinkOpener Observations Shapes StringFacts
       RegexFacts Selection Expressions Effects Examples.

Lemma ms_column_suffix_at_end (q : nat) (cs : list (nat * str)) :
  ms (Seq (Opt (Group 1 (Seq (Chr (chr_is ":")) (Plus (Chr is_digit))))) Eol)
     (MState q [] cs)
  = [MState q [] cs].
Proof. reflexivity. Qed.

(** What [/:\d+(:\d+)?$/] accepts at a given index. *)
Lemma line_column_suffix_sound (q : nat) (s : str) (st' : mstate) :
  In st' (ms re_line_column_suffix (MState q s [])) ->
  exists d1 x,
    s = ":"%char :: d1 ++ x /\ d1 <> [] /\ all_digits d1 /\
    (x = [] \/ exists d2, x = ":"%char :: d2 /\ d2 <> [] /\ all_digits d2) /\
    rest st' = [].
Proof.
  unfold re_line_column_suffix, digit. rewrite ms_Seq. intros Hin.
  apply in_flat_map in Hin as [st1 [H1 Hin]].
  apply in_ms_Chr in H1 as [c (Hr & Hc & _ & _)].
  apply chr_is_eq in Hc. subst c. cbn [rest] in Hr.
  rewrite ms_Seq in Hin. apply in_flat_map in Hin as [st2 [H2 Hin]].
  apply in_ms_Plus_Chr in H2 as [d1 (Hne & Hd & Hr2 & _ & _)].
  rewrite ms_Seq, ms_Opt, ms_Group, ms_Seq in Hin.
  apply in_flat_map in Hin as [st3 [H3 Hin]].
  apply in_ms_Eol in Hin as [-> Hend].
  exists d1, (rest st2). rewrite Hr, Hr2. repeat split; auto.
  apply in_app_or in H3 as [H3|[<-|[]]]; [|now left].
  apply in_map_iff in H3 as [sy [<- Hy]].
  apply in_flat_map in Hy as [sz [Hz Hy]].
  apply in_ms_Chr in Hz as [c (Hrz & Hc & _ & _)].
  apply chr_is_eq in Hc. subst c.
  apply in_ms_Plus_Chr in Hy as [d2 (Hne2 & Hd2 & Hry & _ & _)].
  cbn [set_cap rest] in Hend. rewrite Hend, app_nil_r in Hry.
  right. exists d2. rewrite Hrz, Hry. auto.
Qed.

(** At the colon of a final [:L] or [:L:C] the first path of the matcher
    reads to the end. *)
Lemma line_column_suffix_head (q : nat) (L x : str) :
  L <> [] -> all_digits L ->
  (x = [] \/ exists C, x = ":"%char :: C /\ C <> [] /\ all_digits C) ->
  exists st tl,
    ms re_line_column_suffix (MState q (":"%char :: L ++ x) []) = st :: tl /\
    rest st = [].
Proof.
  intros Hne Hd Hx. destruct L as [|c d]; [congruence|].
  unfold re_line_column_suffix, digit. rewrite ms_Seq, ms_Chr_cons.
  unfold chr_is at 1. rewrite Ascii.eqb_refl. cbn [flat_map].
  rewrite app_nil_r, ms_Seq.
  destruct Hx as [->|[C (-> & HCne & HC)]].
  - destruct (ms_Plus_Chr_head is_digit c d (S q) [] [] Hd I) as [tl Htl].
    rewrite Htl. cbn [flat_map]. rewrite ms_column_suffix_at_end.
    cbn [app]. eexists. eexists. split; reflexivity.
  - destruct (ms_Plus_Chr_head is_digit c d (S q) (":"%char :: C) [] Hd eq_refl)
      as [tl Htl].
    rewrite Htl. cbn [flat_map].
    rewrite ms_Seq, ms_Opt, ms_Group, ms_Seq, ms_Chr_cons.
    rewrite Ascii.eqb_refl. cbn [flat_map].
    rewrite app_nil_r. destruct C as [|c' C']; [congruence|].
    destruct (ms_Plus_Chr_head is_digit c' C'
                (S (S q + List.length (c :: d))) [] [] HC I) as [tl2 Htl2].
    rewrite app_nil_r in Htl2. rewrite Htl2.
    cbn [map app flat_map]. unfold set_cap at 1. cbn [pos rest caps].
    rewrite ms_Eol_nil. cbn [app]. eexists. eexists. split; reflexivity.
Qed.

(** No match of either expression starts inside [P] when [P] is followed
    by [:L:C]; for [:L] alone, none starts inside a [P] that does not end
    with a colon and digits. *)
Lemma tail_excludes_earlier_start (T L x d1 y : str) :
  T <> [] -> all_digits L -> all_digits d1 ->
  (x = [] \/ exists C, x = ":"%char :: C /\ C <> [] /\ all_digits C) ->
  (y = [] \/ exists d2, y = ":"%char :: d2 /\ d2 <> [] /\ all_digits d2) ->
  T ++ ":"%char :: L ++ x = ":"%char :: d1 ++ y ->
  x = [] /\ exists d2, y = ":"%char :: d2 /\ T = ":"%char :: d1 /\ L = d2.
Proof.
  intros HT HL Hd1 Hx Hy Heq.
  destruct Hx as [->|[C (-> & HCne & HC)]];
    destruct Hy as [->|[d2 (-> & Hne2 & Hd2)]].
  - rewrite !app_nil_r in Heq.
    destruct (unique_last_occurrence ":"%char T L [] d1 Heq
                (digits_no_colon L HL) (digits_no_colon d1 Hd1)) as [HT' _].
    contradiction.
  - rewrite app_nil_r in Heq.
    change (":"%char :: d1 ++ ":"%char :: d2)
      with ((":"%char :: d1) ++ ":"%char :: d2) in Heq.
    destruct (unique_last_occurrence ":"%char T L _ d2 Heq
                (digits_no_colon L HL) (digits_no_colon d2 Hd2)) as [HT' HL'].
    split; [reflexivity|]. exists d2. auto.
  - exfalso. rewrite app_nil_r in Heq.
    change (T ++ ":"%char :: L ++ ":"%char :: C)
      with (T ++ (":"%char :: L) ++ ":"%char :: C) in Heq.
    rewrite app_assoc in Heq.
    destruct (unique_last_occurrence ":"%char _ C [] d1 Heq
                (digits_no_colon C HC) (digits_no_colon d1 Hd1)) as [HT' _].
    destruct T; discriminate.
  - exfalso.
    change (T ++ ":"%char :: L ++ ":"%char :: C)
      with (T ++ (":"%char :: L) ++ ":"%char :: C) in Heq.
    rewrite app_assoc in Heq.
    change (":"%char :: d1 ++ ":"%char :: d2)
      with ((":"%char :: d1) ++ ":"%char :: d2) in Heq.
    destruct (unique_last_occurrence ":"%char _ C _ d2 Heq
                (digits_no_colon C HC) (digits_no_colon d2 Hd2)) as [HT' _].
    change (T ++ ":"%char :: L = [] ++ ":"%char :: d1) in HT'.
    destruct (unique_last_occurrence ":"%char T L [] d1 HT'
                (digits_no_colon L HL) (digits_no_colon d1 Hd1)) as [HT'' _].
    contradiction.
Qed.

Lemma skipn_inside (k : nat) (P s : str) :
  k < List.length P ->
  skipn k (P ++ s) = skipn k P ++ s /\ skipn k P <> [].
Proof.
  intros Hk. split.
  - rewrite skipn_app. replace (k - List.length P) with 0 by lia. reflexivity.
  - intros H. apply (f_equal (@List.length ascii)) in H.
    rewrite length_skipn in H. cbn in H. lia.
Qed.

Lemma replace_empty_at (r : regex) (P s' : str) (st : mstate)
    (tl : list mstate) :
  (forall k, k < List.length P ->
             ms r (MState k (skipn k (P ++ s')) []) = []) ->
  ms r (MState (List.length P) s' []) = st :: tl ->
  rest st = [] ->
  replace_empty r (P ++ s') = P.
Proof.
  intros Hbefore Hms Hend. unfold replace_empty, exec.
  rewrite search_skip by exact Hbefore. cbn [Nat.add].
  rewrite (search_head _ _ _ _ _ Hms), Hend.
  rewrite firstn_app, firstn_all, Nat.sub_diag. cbn [firstn].
  now rewrite !app_nil_r.
Qed.

Lemma replace_position_suffix :
  (forall P L C,
      L <> [] -> all_digits L -> C <> [] -> all_digits C ->
      replace_empty re_line_column_suffix
                    (P ++ ":"%char :: L ++ ":"%char :: C) = P) /\
  (forall P L,
      L <> [] -> all_digits L ->
      ends_with_colon_digits false P = false ->
      replace_empty re_line_column_suffix (P ++ ":"%char :: L) = P) /\
  (forall s,
      ends_with_colon_digits false s = false ->
      replace_empty re_line_column_suffix s = s).
Proof.
  split; [|split].
  - intros P L C HLne HL HCne HC.
    destruct (line_column_suffix_head (List.length P) L (":"%char :: C) HLne HL)
      as (st & tl & Hms & Hend).
    { right. exists C. auto. }
    apply (replace_empty_at _ P _ st tl); auto.
    intros k Hk. destruct (skipn_inside k P (":"%char :: L ++ ":"%char :: C) Hk)
      as [-> HT].
    match goal with |- ?m = [] => destruct m as [|st' tl'] eqn:E end;
      [reflexivity|].
    exfalso.
    assert (Hin : In st' (ms re_line_column_suffix
                            (MState k (skipn k P ++ ":"%char :: L
                                         ++ ":"%char :: C) [])))
      by (rewrite E; now left).
    apply line_column_suffix_sound in Hin as (d1 & y & Heq & _ & Hd1 & Hy & _).
    destruct (tail_excludes_earlier_start (skipn k P) L (":"%char :: C) d1 y
                HT HL Hd1) as [Hx _]; auto; [|discriminate].
    right. exists C. auto.
  - intros P L HLne HL HP.
    destruct (line_column_suffix_head (List.length P) L [] HLne HL)
      as (st & tl & Hms & Hend); [now left|].
    rewrite app_nil_r in Hms.
    apply (replace_empty_at _ P _ st tl); auto.
    intros k Hk. destruct (skipn_inside k P (":"%char :: L) Hk) as [-> HT].
    match goal with |- ?m = [] => destruct m as [|st' tl'] eqn:E end;
      [reflexivity|].
    exfalso.
    assert (Hin : In st' (ms re_line_column_suffix
                            (MState k (skipn k P ++ ":"%char :: L) [])))
      by (rewrite E; now left).
    apply line_column_suffix_sound in Hin
      as (d1 & y & Heq & Hd1ne & Hd1 & Hy & _).
    rewrite <- (app_nil_r L) in Heq at 1.
    destruct (tail_excludes_earlier_start (skipn k P) L [] d1 y
                HT HL Hd1) as [_ (d2 & _ & HT' & _)]; auto.
    rewrite <- (firstn_skipn k P), HT' in HP.
    rewrite ends_with_colon_digits_intro in HP; auto. discriminate.
  - intros s Hs. unfold replace_empty, exec.
    rewrite search_none; [reflexivity|].
    intros k Hk. cbn [Nat.add].
    match goal with |- ?m = [] => destruct m as [|st' tl'] eqn:E end;
      [reflexivity|].
    exfalso.
    assert (Hin : In st' (ms re_line_column_suffix (MState k (skipn k s) [])))
      by (rewrite E; now left).
    apply line_column_suffix_sound in Hin
      as (d1 & y & Heq & Hd1ne & Hd1 & Hy & _).
    rewrite <- (firstn_skipn k s), Heq in Hs.
    destruct Hy as [->|[d2 (-> & Hne2 & Hd2)]].
    + rewrite app_nil_r in Hs.
      rewrite ends_with_colon_digits_intro in Hs; auto. discriminate.
    + change (firstn k s ++ ":"%char :: d1 ++ ":"%char :: d2)
        with (firstn k s ++ (":"%char :: d1) ++ ":"%char :: d2) in Hs.
      rewrite app_assoc in Hs.
      rewrite ends_with_colon_digits_intro in Hs; auto. discriminate.
Qed.

(** X9.  The sanitized link is the link without its position suffix:
    [P:L:C] gives [P] for every [P]; [P:L] gives [P] when [P] does not
    itself end with a colon and digits; and a link that does not end
    with a colon and digits is left as it is. *)
Theorem position_suffix_removed :
  (forall P L C,
      L <> [] -> all_digits L -> C <> [] -> all_digits C ->
      replace_empty re_line_column_suffix
                    (P ++ ":"%char :: L ++ ":"%char :: C) = P) /\
  (forall P L,
      L <> [] -> all_digits L ->
      ends_with_colon_digits false P = false ->
      replace_empty re_line_column_suffix (P ++ ":"%char :: L) = P) /\
  (forall s,
      ends_with_colon_digits false s = false ->
      replace_empty re_line_column_suffix s = s).
Proof. exact replace_position_suffix. Qed.

Lemma position_suffix_removed_witness :
  replace_empty re_line_column_suffix (lit "src/a:b.ts:42:7") = lit "src/a:b.ts"
  /\ replace_empty re_line_column_suffix (lit "src/a.ts:42") = lit "src/a.ts"
  /\ replace_empty re_line_column_suffix (lit "src/a.ts:") = lit "src/a.ts:".
Proof.
  split; [|split].
  - apply (proj1 position_suffix_removed (lit "src/a:b.ts") (lit "42")
                 (lit "7")); try discriminate; reflexivity.
  - apply (proj1 (proj2 position_suffix_removed) (lit "src/a.ts") (lit "42"));
      try discriminate; reflexivity.
  - apply (proj2 (proj2 position_suffix_removed) (lit "src/a.ts:")).
    reflexivity.
Defined.

(** At the colon of a final [:L:C] the first path of the matcher takes
    [L] as its first group and [C] as its third. *)
Lemma line_column_head_with_column (q : nat) (L C : str) :
  L <> [] -> all_digits L -> C <> [] -> all_digits C ->
  exists st tl,
    ms re_line_column (MState q (":"%char :: L ++ ":"%char :: C) [])
    = st :: tl /\
    capture 1 (caps st) = Some L /\ capture 3 (caps st) = Some C.
Proof.
  intros HLne HL HCne HC.
  destruct L as [|c d]; [congruence|]. destruct C as [|c' d']; [congruence|].
  unfold re_line_column, digit. rewrite ms_Seq, ms_Chr_cons.
  unfold chr_is at 1. rewrite Ascii.eqb_refl. cbn [flat_map].
  rewrite app_nil_r, ms_Seq, ms_Opt, ms_Group.
  destruct (ms_Plus_Chr_head is_digit c d (S q) (":"%char :: c' :: d') [] HL
              eq_refl) as [tl Htl].
  rewrite Htl. cbn [map app flat_map]. unfold set_cap at 1.
  cbn [pos rest caps].
  replace (S q + List.length (c :: d) - S q) with (List.length (c :: d)) by lia.
  change (c :: d ++ ":"%char :: c' :: d')
    with ((c :: d) ++ ":"%char :: c' :: d').
  rewrite firstn_app, firstn_all, Nat.sub_diag. cbn [firstn].
  rewrite app_nil_r.
  rewrite ms_Seq, ms_Opt, ms_Group, ms_Seq, ms_Chr_cons.
  rewrite Ascii.eqb_refl. cbn [flat_map]. rewrite app_nil_r, ms_Group.
  match goal with
  | |- context [ms (Plus (Chr is_digit)) (MState ?q' (c' :: d') ?cs)] =>
      destruct (ms_Plus_Chr_head is_digit c' d' q' [] cs HC I) as [tl2 Htl2]
  end.
  rewrite app_nil_r in Htl2. rewrite Htl2.
  cbn [map app flat_map]. unfold set_cap at 1 2. cbn [pos rest caps].
  rewrite ms_Eol_nil. cbn [app].
  eexists. eexists. split; [reflexivity|].
  cbn [caps capture Nat.eqb]. split; [reflexivity|].
  f_equal.
  replace (S (S q + List.length (c :: d)) + List.length (c' :: d')
           - S (S q + List.length (c :: d)))
    with (List.length (c' :: d')) by lia.
  apply firstn_all.
Qed.

Lemma open_selection_line_and_column (P L C : str) :
  L <> [] -> all_digits L -> C <> [] -> all_digits C ->
  open_selection (P ++ ":"%char :: L ++ ":"%char :: C)
  = Some {| startLineNumber := parseInt L None;
            startColumn := parseInt C None |}.
Proof.
  intros HLne HL HCne HC. unfold open_selection, match_groups, exec.
  rewrite search_skip.
  - destruct (line_column_head_with_column (0 + List.length P) L C
                HLne HL HCne HC) as (st & tl & Hms & H1 & H3).
    rewrite (search_head _ _ _ _ _ Hms).
    cbn [seq map LocalFileLinkOpener.at_index Nat.sub nth_error].
    rewrite H1, H3.
    destruct L as [|c d]; [congruence|]. destruct C as [|c' d']; [congruence|].
    reflexivity.
  - intros k Hk. cbn [Nat.add].
    destruct (skipn_inside k P (":"%char :: L ++ ":"%char :: C) Hk)
      as [-> HT].
    match goal with |- ?m = [] => destruct m as [|st' tl'] eqn:E end;
      [reflexivity|].
    exfalso.
    assert (Hin : In st' (ms re_line_column
                            (MState k (skipn k P ++ ":"%char :: L
                                         ++ ":"%char :: C) [])))
      by (rewrite E; now left).
    apply line_column_sound in Hin as (d1 & y & Heq & Hd1 & Hy & _).
    destruct (tail_excludes_earlier_start (skipn k P) L (":"%char :: C) d1 y
                HT HL Hd1) as [Hx _]; auto; [|discriminate].
    right. exists C. auto.
Qed.

(** X10.  A link that ends with [:L:C] is searched without that suffix
    and opened at the line and the column that [parseInt] reads from [L]
    and [C] (the doubles nearest to their decimal values, which are these
    values up to 2^53), whatever precedes the suffix: when the text
    before the suffix is not an absolute path and the search finds
    exactly one file for it, [open] makes the search, opens that file
    with that selection, and returns normally when the editor accepts. *)
Theorem open_at_line_and_column
    (env : Env) (lk : ITerminalSimpleLink) (P L C : str) (r : URI) :
  open_matchLink env lk = P ++ ":"%char :: L ++ ":"%char :: C ->
  L <> [] -> all_digits L -> C <> [] -> all_digits C ->
  isAbsolute (platform env) P = false ->
  searchService_fileSearch env (search_query env P) = Ok [r] ->
  open_sanitizedLink env lk = P /\
  open_selection (open_matchLink env lk)
  = Some {| startLineNumber := parseInt L None;
            startColumn := parseInt C None |} /\
  (parseInt L None = to_number false (decimal L) /\
   parseInt C None = to_number false (decimal C)) /\
  ((decimal L <= 2 ^ 53)%Z -> parseInt L None = Num (decimal L)) /\
  ((decimal C <= 2 ^ 53)%Z -> parseInt C None = Num (decimal C)) /\
  exists tl,
    snd (run (open env lk))
    = EvFileSearch (search_query env P)
        :: EvOpenEditor
             {| resource := r;
                options :=
                  {| pinned := true;
                     revealIfOpened := true;
                     selection :=
                       Some {| startLineNumber := parseInt L None;
                               startColumn := parseInt C None |} |} |}
        :: tl /\
    (editorService_openEditor env
       {| resource := r;
          options :=
            {| pinned := true;
               revealIfOpened := true;
               selection :=
                 Some {| startLineNumber := parseInt L None;
                         startColumn := parseInt C None |} |} |} = Ok tt ->
     tl = [] /\ fst (run (open env lk)) = Ok tt).
Proof.
  intros Hlink HLne HL HCne HC Hrel Hsearch.
  assert (Hsan : open_sanitizedLink env lk = P).
  { unfold open_sanitizedLink. rewrite Hlink.
    now apply (proj1 replace_position_suffix). }
  assert (Hsel : open_selection (open_matchLink env lk)
                 = Some {| startLineNumber := parseInt L None;
                           startColumn := parseInt C None |}).
  { rewrite Hlink. now apply open_selection_line_and_column. }
  pose proof (parseInt_decimal L None HLne HL (or_introl eq_refl)) as HpL.
  pose proof (parseInt_decimal C None HCne HC (or_introl eq_refl)) as HpC.
  split; [exact Hsan|]. split; [exact Hsel|]. split; [now split|].
  split.
  { intros Hb. rewrite HpL. apply to_number_exact.
    split; [now apply decimal_nonnegative|exact Hb]. }
  split.
  { intros Hb. rewrite HpC. apply to_number_exact.
    split; [now apply decimal_nonnegative|exact Hb]. }
  rewrite open_run. cbv zeta. rewrite Hsan, getExactMatch_run, Hrel.
  unfold search_answer, editor_input. rewrite Hsearch, Hsel.
  destruct (editorService_openEditor env _) as [[]|e] eqn:Hed.
  - exists []. split; [reflexivity|]. intros _. now split.
  - eexists. split; [reflexivity|]. intros H. discriminate H.
Qed.

Lemma open_at_line_and_column_witness :
  open_sanitizedLink one_result_host (link_of "proj/src/app.ts:42:7")
  = lit "src/app.ts".
Proof.
  apply (open_at_line_and_column one_result_host
           (link_of "proj/src/app.ts:42:7") (lit "src/app.ts") (lit "42")
           (lit "7") (URI_from file (lit "/home/u/proj/src/app.ts")));
    try discriminate; reflexivity.
Defined.

End PositionSuffix.

(** ** Cleaning only trims *)

Module Trimming.

Import JS Regex Services SearchLinkOpener Observations Shapes StringFacts
       RegexFacts Expressions Examples.

Lemma iter_star_suffix (step : mstate -> list mstate) :
  (forall st st', In st' (step st) -> exists w, rest st = w ++ rest st') ->
  forall fuel st st',
    In st' (iter_star step fuel st) -> exists w, rest st = w ++ rest st'.
Proof.
  intros Hstep. induction fuel as [|fuel IH]; intros st st' Hin.
  - destruct Hin as [<-|[]]. now exists [].
  - rewrite iter_star_S in Hin. apply in_app_or in Hin as [Hin|[<-|[]]].
    + apply in_flat_map in Hin as [st1 [H1 Hin]].
      destruct (pos st <? pos st1); [|destruct Hin].
      apply Hstep in H1 as [w1 Hw1]. apply IH in Hin as [w2 Hw2].
      exists (w1 ++ w2). now rewrite Hw1, Hw2, app_assoc.
    + now exists [].
Qed.

(** A path of the matcher ends on a suffix of what it started on. *)
Lemma ms_suffix (r : regex) :
  forall st st', In st' (ms r st) -> exists w, rest st = w ++ rest st'.
Proof.
  induction r as [p| | |r1 IH1 r2 IH2|r IH|r IH|i r IH|r1 IH1 r2 IH2];
    intros st st' Hin.
  - apply in_ms_Chr in Hin as [c (Hr & _)]. exists [c]. exact Hr.
  - cbn [ms] in Hin. destruct (pos st =? 0); [|destruct Hin].
    destruct Hin as [<-|[]]. now exists [].
  - apply in_ms_Eol in Hin as [-> _]. now exists [].
  - rewrite ms_Seq in Hin. apply in_flat_map in Hin as [st1 [H1 Hin]].
    apply IH1 in H1 as [w1 Hw1]. apply IH2 in Hin as [w2 Hw2].
    exists (w1 ++ w2). now rewrite Hw1, Hw2, app_assoc.
  - rewrite ms_Opt in Hin. apply in_app_or in Hin as [Hin|[<-|[]]].
    + now apply IH.
    + now exists [].
  - rewrite ms_Star in Hin. now apply (iter_star_suffix (ms r) IH) in Hin.
  - rewrite ms_Group in Hin. apply in_map_iff in Hin as [st1 [<- Hin]].
    cbn [set_cap rest]. now apply IH.
  - rewrite ms_Alt in Hin. apply in_app_or in Hin as [Hin|Hin];
      [now apply IH1|now apply IH2].
Qed.

Lemma replace_empty_Bol_suffix (r : regex) (s : str) :
  exists pre, s = pre ++ replace_empty (Seq Bol r) s.
Proof.
  unfold replace_empty, exec.
  destruct (search (Seq Bol r) 0 s) as [[q st]|] eqn:E; [|now exists []].
  apply search_some in E as (k & tl & -> & Hk & Hms).
  destruct k as [|k]; [|discriminate Hms].
  cbn [Nat.add skipn firstn app] in *.
  assert (Hin : In st (ms (Seq Bol r) (MState 0 s []))) by (rewrite Hms; now left).
  apply ms_suffix in Hin as [w Hw]. exists w. exact Hw.
Qed.

Lemma strip_folder_suffix (sep : ascii) (t : str) (f : IWorkspaceFolder) :
  exists pre, t = pre ++ strip_folder sep t f.
Proof.
  unfold strip_folder. destruct (str_eqb _ _).
  - exists (firstn (List.length (name f) + 1) t).
    symmetry. apply firstn_skipn.
  - now exists [].
Qed.

Lemma strip_folders_suffix (sep : ascii) :
  forall folders t,
    exists pre, t = pre ++ fold_left (strip_folder sep) folders t.
Proof.
  induction folders as [|f fs IH]; intros t; [now exists []|].
  cbn [fold_left]. destruct (strip_folder_suffix sep t f) as [pre1 H1].
  destruct (IH (strip_folder sep t f)) as [pre2 H2].
  exists (pre1 ++ pre2). rewrite <- app_assoc, <- H2. exact H1.
Qed.

(** X11.  After the path normalisation, the cleaning of [open] only
    trims: the cleaned text is the normalised text without a prefix (the
    dot segments and the folder names) and without at most one final
    [:in]; no character is added or changed. *)
Theorem cleaning_only_trims (env : Env) (x : str) :
  exists pre suf,
    normalize (platform env) (replace_empty re_file_scheme x)
    = pre ++ open_text env x ++ suf /\
    (suf = [] \/ suf = lit ":in").
Proof.
  unfold open_text.
  set (n := normalize (platform env) (replace_empty re_file_scheme x)).
  destruct (replace_empty_Bol_suffix
              (Plus (Group 1 (Seq (Plus (Chr (chr_is ".")))
                                  (Chr (fun c => chr_is "\" c || chr_is "/" c)))))
              n) as [pre1 Hpre1].
  fold re_leading_dots in Hpre1.
  set (a := replace_empty re_leading_dots n) in *.
  destruct (strip_folders_suffix (pathSeparator (platform env))
              (workspace_folders env) (replace_empty re_in_suffix a))
    as [pre2 Hpre2].
  set (c := fold_left _ _ _) in *.
  rewrite replace_in_suffix in Hpre2.
  destruct (ends_with (lit ":in") a) eqn:E.
  - apply ends_with_spec in E as [t Ht].
    assert (Hb : firstn (List.length a - 3) a = t).
    { rewrite Ht, length_app. change (List.length (lit ":in")) with 3.
      rewrite Nat.add_sub, firstn_app, firstn_all, Nat.sub_diag.
      cbn [firstn]. apply app_nil_r. }
    rewrite Hb in Hpre2. exists (pre1 ++ pre2), (lit ":in").
    split; [|now right].
    rewrite Hpre1, Ht, Hpre2, <- !app_assoc. reflexivity.
  - exists (pre1 ++ pre2), []. split; [|now left].
    rewrite Hpre1, Hpre2, app_nil_r, <- app_assoc. reflexivity.
Qed.

End Trimming.

(** ** The rewriting against the directory of the line, in general *)

Module Rewriting.

Import JS Regex Services SearchLinkOpener Observations Shapes StringFacts
       Examples.

Lemma split_not_nil (c : ascii) (s : str) : split c s <> [].
Proof.
  destruct s as [|x t]; cbn [split]; [discriminate|].
  destruct (Ascii.eqb x c); [discriminate|].
  destruct (split c t); discriminate.
Qed.

Lemma join_cons (c : ascii) (a : str) (l : list str) :
  l <> [] -> join c (a :: l) = a ++ c :: join c l.
Proof. destruct l; [congruence|reflexivity]. Qed.

(** Splitting at a character and joining with it gives the string back. *)
Lemma join_split (c : ascii) (s : str) : join c (split c s) = s.
Proof.
  induction s as [|x t IH]; [reflexivity|].
  cbn [split]. destruct (Ascii.eqb_spec x c) as [->|Hne].
  - rewrite join_cons by apply split_not_nil. now rewrite IH.
  - pose proof (split_not_nil c t) as Hnil.
    destruct (split c t) as [|seg segs]; [congruence|].
    destruct segs as [|seg' segs].
    + cbn [join] in *. now rewrite IH.
    + rewrite join_cons by discriminate.
      rewrite join_cons in IH by discriminate.
      cbn [app]. now rewrite IH.
Qed.

Lemma join_skipn_suffix (c : ascii) :
  forall k l, exists pre, join c l = pre ++ join c (skipn k l).
Proof.
  induction k as [|k IH]; intros l; [now exists []|].
  destruct l as [|a l]; [now exists []|].
  cbn [skipn]. destruct (IH l) as [pre Hpre].
  destruct l as [|b l].
  - rewrite skipn_nil. exists a. cbn. now rewrite app_nil_r.
  - rewrite join_cons by discriminate. exists (a ++ c :: pre).
    rewrite Hpre, <- app_assoc. reflexivity.
Qed.

Lemma fold_left_count (P : nat -> bool) :
  forall l a,
    fold_left (fun n i => if P i then S n else n) l a
    = a + List.length (filter P l).
Proof.
  induction l as [|i l IH]; intros a; cbn [fold_left filter].
  - cbn. lia.
  - rewrite IH. destruct (P i); cbn [List.length]; lia.
Qed.

Lemma includes_true (c : ascii) (s : str) : In c s -> includes c s = true.
Proof.
  unfold includes. intros Hin. apply existsb_exists. exists c.
  split; [exact Hin|apply Ascii.eqb_refl].
Qed.

(** The result of [_updateLinkWithRelativeCwd] for a usable directory. *)
Lemma updateLink_with_cwd (env : Env) (y : Z) (text : str) (sep : ascii)
    (cwd : str) :
  usable_cwd env y = Some cwd ->
  _updateLinkWithRelativeCwd env y text sep
  = Some (cwd ++ sep
              :: (if includes sep text
                  then join sep
                         (skipn (positional_matches (rev (split sep cwd))
                                   (split sep text)
                                   (List.length (rev (split sep cwd))))
                                (split sep text))
                  else text)).
Proof.
  unfold usable_cwd, _updateLinkWithRelativeCwd.
  destruct (commandDetection env) as [g|]; [|discriminate].
  destruct (g y) as [[|c t]|]; try discriminate.
  intros [= <-]. cbn [truthy negb].
  destruct (includes sep text); cbn [negb]; [|reflexivity].
  rewrite fold_left_count. reflexivity.
Qed.

Lemma updateLink_without_cwd (env : Env) (y : Z) (text : str) (sep : ascii) :
  usable_cwd env y = None ->
  _updateLinkWithRelativeCwd env y text sep = None.
Proof.
  unfold usable_cwd, _updateLinkWithRelativeCwd.
  destruct (commandDetection env) as [g|]; [|reflexivity].
  destruct (g y) as [[|c t]|]; try discriminate; reflexivity.
Qed.

(** X12.  [_updateLinkWithRelativeCwd] returns nothing exactly when there
    is no usable directory for the row (no command detection, no
    directory, or an empty one).  Otherwise its result is the directory,
    the separator, and a suffix of the link: it never changes the
    directory and never adds to the link. *)
Theorem rewrite_keeps_cwd_and_a_suffix
    (env : Env) (y : Z) (text : str) (sep : ascii) :
  (_updateLinkWithRelativeCwd env y text sep = None
   <-> usable_cwd env y = None) /\
  (forall cwd,
      usable_cwd env y = Some cwd ->
      exists pre tail,
        _updateLinkWithRelativeCwd env y text sep
          = Some (cwd ++ [sep] ++ tail) /\
        text = pre ++ tail).
Proof.
  split.
  - split.
    + intros Hnone. destruct (usable_cwd env y) as [cwd|] eqn:E; [|reflexivity].
      rewrite (updateLink_with_cwd env y text sep cwd E) in Hnone.
      discriminate.
    + apply updateLink_without_cwd.
  - intros cwd Hcwd. rewrite (updateLink_with_cwd env y text sep cwd Hcwd).
    destruct (includes sep text).
    + destruct (join_skipn_suffix sep
                  (positional_matches (rev (split sep cwd)) (split sep text)
                     (List.length (rev (split sep cwd))))
                  (split sep text)) as [pre Hpre].
      rewrite join_split in Hpre. eexists. eexists.
      split; [reflexivity|exact Hpre].
    + exists [], text. split; reflexivity.
Qed.

Lemma rewrite_keeps_cwd_and_a_suffix_witness :
  exists pre tail,
    _updateLinkWithRelativeCwd cwd_host 3 (lit "proj/src/a.ts") "/"
      = Some (lit "/home/u/proj" ++ ["/"%char] ++ tail) /\
    lit "proj/src/a.ts" = pre ++ tail.
Proof.
  apply (proj2 (rewrite_keeps_cwd_and_a_suffix cwd_host 3
                  (lit "proj/src/a.ts") "/")).
  reflexivity.
Defined.

(** X13.  The link that [open] matches is the cleaned text when there
    is no usable directory for the row of the link, and the rewritten
    link otherwise; the rewritten link is never empty, so that the
    fallback [|| text] is taken only when the rewriting returns
    nothing, and the matched link then starts with the directory and the
    separator. *)
Theorem matchLink_is_text_or_rewrite (env : Env) (lk : ITerminalSimpleLink) :
  (usable_cwd env (bufferRange_start_y lk) = None ->
   open_matchLink env lk = open_text env (text lk)) /\
  (forall cwd,
      usable_cwd env (bufferRange_start_y lk) = Some cwd ->
      _updateLinkWithRelativeCwd env (bufferRange_start_y lk)
        (open_text env (text lk)) (pathSeparator (platform env))
        = Some (open_matchLink env lk) /\
      starts_with (cwd ++ [pathSeparator (platform env)])
                  (open_matchLink env lk) = true).
Proof.
  unfold open_matchLink. split.
  - intros Hnone.
    rewrite (updateLink_without_cwd env _ _ _ Hnone).
    destruct (commandDetection env); reflexivity.
  - intros cwd Hcwd.
    rewrite (updateLink_with_cwd env _ (open_text env (text lk))
               (pathSeparator (platform env)) cwd Hcwd).
    assert (Hcap : exists g, commandDetection env = Some g).
    { unfold usable_cwd in Hcwd.
      destruct (commandDetection env) as [g|]; [now exists g|discriminate]. }
    destruct Hcap as [g ->].
    assert (Hne : cwd <> []).
    { unfold usable_cwd in Hcwd. destruct (commandDetection env) as [g'|];
        [|discriminate].
      destruct (g' (bufferRange_start_y lk)) as [[|c t]|]; congruence. }
    destruct cwd as [|c t]; [congruence|]. cbn [app truthy].
    split; [reflexivity|].
    apply starts_with_spec. eexists.
    change (c :: t ++ ?x :: ?tl) with ((c :: t) ++ [x] ++ tl).
    rewrite app_assoc. reflexivity.
Qed.

Lemma matchLink_is_text_or_rewrite_witness :
  open_matchLink empty_host (link_of "./src/a.ts:3") = lit "src/a.ts:3" /\
  starts_with (lit "/home/u/proj" ++ ["/"%char])
              (open_matchLink cwd_host (link_of "./src/a.ts:3")) = true.
Proof.
  split.
  - apply (proj1 (matchLink_is_text_or_rewrite empty_host
                    (link_of "./src/a.ts:3"))).
    reflexivity.
  - apply (proj2 (matchLink_is_text_or_rewrite cwd_host
                    (link_of "./src/a.ts:3"))
                 (lit "/home/u/proj") eq_refl).
Defined.

(** X14.  When no segment of the link equals the segment of the reversed
    directory at the same index, the rewriting puts the directory and the
    separator in front of the whole link, also for a link that contains
    separators. *)
Theorem rewrite_without_common_segment
    (env : Env) (y : Z) (text : str) (sep : ascii) (cwd : str) :
  usable_cwd env y = Some cwd ->
  positional_matches (rev (split sep cwd)) (split sep text)
                     (List.length (split sep cwd)) = 0 ->
  _updateLinkWithRelativeCwd env y text sep = Some (cwd ++ [sep] ++ text).
Proof.
  intros Hcwd Hnone. rewrite (updateLink_with_cwd env y text sep cwd Hcwd).
  rewrite length_rev, Hnone. cbn [skipn]. rewrite join_split.
  destruct (includes sep text); reflexivity.
Qed.

Lemma rewrite_without_common_segment_witness :
  _updateLinkWithRelativeCwd cwd_host 3 (lit "src/lib/a.ts") "/"
  = Some (lit "/home/u/proj/src/lib/a.ts").
Proof.
  apply (rewrite_without_common_segment cwd_host 3 (lit "src/lib/a.ts") "/"
           (lit "/home/u/proj")); reflexivity.
Defined.

Lemma filter_none {A} (f : A -> bool) (l : list A) :
  (forall x, In x l -> f x = false) -> filter f l = [].
Proof.
  induction l as [|x l IH]; intros H; [reflexivity|].
  cbn [filter]. rewrite (H x (or_introl eq_refl)). apply IH.
  intros z Hz. apply H. now right.
Qed.

Lemma positional_matches_prefix (l more : list str) :
  positional_matches (l ++ more) l (List.length (l ++ more)) = List.length l.
Proof.
  unfold positional_matches. rewrite length_app, seq_app, filter_app.
  rewrite length_app. cbn [Nat.add].
  assert (H1 : filter (fun i => strict_eq (nth_error (l ++ more) i)
                                          (nth_error l i))
                      (seq 0 (List.length l)) = seq 0 (List.length l)).
  { apply forallb_filter_id. apply forallb_forall. intros i Hi.
    apply in_seq in Hi. rewrite nth_error_app1 by lia.
    destruct (nth_error l i) as [v|] eqn:E.
    - apply str_eqb_refl.
    - reflexivity. }
  assert (H2 : filter (fun i => strict_eq (nth_error (l ++ more) i)
                                          (nth_error l i))
                      (seq (List.length l) (List.length more)) = []).
  { apply filter_none. intros i Hi. apply in_seq in Hi.
    assert (Hl : nth_error l i = None) by (apply nth_error_None; lia).
    rewrite Hl.
    destruct (nth_error (l ++ more) i) eqn:E; [reflexivity|].
    apply nth_error_None in E. rewrite length_app in E. lia. }
  rewrite H1, H2, length_seq. cbn. lia.
Qed.

(** X15.  The comparison by index can use up the whole link: when the
    segments of a link with a separator are the first segments of the
    reversed directory, every one of them counts as common and the
    rewriting returns the directory and the separator alone, without
    any part of the link. *)
Theorem rewrite_drops_link_of_reversed_cwd_segments
    (env : Env) (y : Z) (text : str) (sep : ascii) (cwd : str)
    (more : list str) :
  usable_cwd env y = Some cwd ->
  In sep text ->
  rev (split sep cwd) = split sep text ++ more ->
  _updateLinkWithRelativeCwd env y text sep = Some (cwd ++ [sep]).
Proof.
  intros Hcwd Hsep Hrev.
  rewrite (updateLink_with_cwd env y text sep cwd Hcwd).
  rewrite (includes_true _ _ Hsep), Hrev, positional_matches_prefix.
  rewrite skipn_all. reflexivity.
Qed.

Lemma rewrite_drops_link_of_reversed_cwd_segments_witness :
  _updateLinkWithRelativeCwd cwd_host 3 (lit "proj/u") "/"
  = Some (lit "/home/u/proj/").
Proof.
  apply (rewrite_drops_link_of_reversed_cwd_segments cwd_host 3 (lit "proj/u")
           "/" (lit "/home/u/proj") [lit "home"; []]).
  - reflexivity.
  - cbn. tauto.
  - reflexivity.
Defined.

End Rewriting.

(** ** The selection is made of numbers *)

Module NumericSelection.

Import JS Regex Services SearchLinkOpener Observations Shapes StringFacts
       RegexFacts Selection Effects Examples.

(** The third group of [/:(\d+)?(:(\d+))?$/] holds digits when it took
    part in the match. *)
Lemma column_part_captures (st st' : mstate) :
  In st' (ms (Seq (Opt (Group 2 (Seq (Chr (chr_is ":"))
                                      (Group 3 (Plus digit)))))
                  Eol) st) ->
  capture 3 (caps st) = None ->
  capture 3 (caps st') = None \/
  exists d2, d2 <> [] /\ all_digits d2 /\ capture 3 (caps st') = Some d2.
Proof.
  rewrite ms_Seq, ms_Opt, ms_Group, ms_Seq. intros Hin Hnone.
  apply in_flat_map in Hin as [st3 [H3 Hin]].
  apply in_ms_Eol in Hin as [-> Hend].
  apply in_app_or in H3 as [H3|[<-|[]]]; [|now left].
  apply in_map_iff in H3 as [sy [<- Hy]].
  apply in_flat_map in Hy as [sz [Hz Hy]].
  apply in_ms_Chr in Hz as [c (Hr & Hc & _ & Hcaps)].
  rewrite ms_Group in Hy. apply in_map_iff in Hy as [sw [<- Hw]].
  apply in_ms_Plus_Chr in Hw as [d2 (Hne & Hd & Hr' & Hpos' & Hcaps')].
  right. exists d2. repeat split; auto.
  cbn [set_cap caps capture Nat.eqb pos rest].
  replace (pos sw - pos sz) with (List.length d2) by lia.
  rewrite Hr', firstn_app, firstn_all, Nat.sub_diag. cbn [firstn].
  now rewrite app_nil_r.
Qed.

Lemma line_column_captures (q : nat) (s : str) (st' : mstate) :
  In st' (ms re_line_column (MState q s [])) ->
  (capture 1 (caps st') = None \/
   exists d1, d1 <> [] /\ all_digits d1 /\ capture 1 (caps st') = Some d1) /\
  (capture 3 (caps st') = None \/
   exists d2, d2 <> [] /\ all_digits d2 /\ capture 3 (caps st') = Some d2).
Proof.
  intros Hin. split.
  - apply line_column_sound in Hin as (d1 & x & _ & Hd1 & _ & Hcap).
    destruct d1 as [|c d1]; [now left|].
    right. exists (c :: d1). repeat split; auto. discriminate.
  - unfold re_line_column in Hin. rewrite ms_Seq in Hin.
    apply in_flat_map in Hin as [st1 [H1 Hin]].
    apply in_ms_Chr in H1 as [c (_ & _ & _ & Hcaps)]. cbn [caps] in Hcaps.
    rewrite ms_Seq in Hin. apply in_flat_map in Hin as [st2 [H2 Hin]].
    apply (column_part_captures st2 st' Hin).
    rewrite ms_Opt, ms_Group in H2. apply in_app_or in H2 as [H2|[<-|[]]].
    + apply in_map_iff in H2 as [sx [<- Hsx]].
      apply in_ms_Plus_Chr in Hsx as [d1 (_ & _ & _ & _ & Hcaps')].
      cbn [set_cap caps capture Nat.eqb]. now rewrite Hcaps', Hcaps.
    + now rewrite Hcaps.
Qed.

(** X16.  Whenever [open] passes a selection to the editor, its line is
    what [parseInt] reads from a non-empty run of digits of the link,
    and its column is 0 or is read from such a run as well: each of
    them is a double with a natural number as its value, or the
    positive infinity (from 309 digits on); the selection never holds
    [NaN], a negative number or the negative zero. *)
Theorem selection_is_numeric (matchLink : str) (sel : ITextEditorSelection) :
  open_selection matchLink = Some sel ->
  (exists L, L <> [] /\ all_digits L /\
             startLineNumber sel = parseInt L None /\
             parseInt L None = to_number false (decimal L)) /\
  (startColumn sel = Num 0 \/
   exists C, C <> [] /\ all_digits C /\
             startColumn sel = parseInt C None /\
             parseInt C None = to_number false (decimal C)) /\
  ((exists z, startLineNumber sel = Num z /\ (0 <= z)%Z) \/
   startLineNumber sel = Infinity false) /\
  ((exists z, startColumn sel = Num z /\ (0 <= z)%Z) \/
   startColumn sel = Infinity false).
Proof.
  unfold open_selection, match_groups.
  destruct (exec re_line_column matchLink) as [[q st']|] eqn:E;
    [|discriminate].
  apply search_some in E as (k & tl & -> & Hk & Hms).
  assert (Hin : In st' (ms re_line_column
                          (MState (0 + k) (skipn k matchLink) [])))
    by (rewrite Hms; now left).
  apply line_column_captures in Hin as [H1 H3].
  cbn [seq map LocalFileLinkOpener.at_index Nat.sub nth_error].
  destruct H1 as [->|[L (HLne & HL & ->)]]; [discriminate|].
  pose proof (parseInt_decimal L None HLne HL (or_introl eq_refl)) as HpL.
  assert (HnL : (exists z, parseInt L None = Num z /\ (0 <= z)%Z) \/
                parseInt L None = Infinity false).
  { rewrite HpL. apply to_number_natural. now apply decimal_nonnegative. }
  destruct L as [|c d]; [congruence|]. cbn [truthy].
  destruct H3 as [->|[C (HCne & HC & ->)]].
  - intros [= <-]. cbn [startLineNumber startColumn truthy].
    split; [exists (c :: d); auto|]. split; [now left|].
    split; [exact HnL|]. left. exists 0%Z. split; [reflexivity|lia].
  - pose proof (parseInt_decimal C None HCne HC (or_introl eq_refl)) as HpC.
    assert (HnC : (exists z, parseInt C None = Num z /\ (0 <= z)%Z) \/
                  parseInt C None = Infinity false).
    { rewrite HpC. apply to_number_natural. now apply decimal_nonnegative. }
    destruct C as [|c' d']; [congruence|]. cbn [truthy].
    intros [= <-]. cbn [startLineNumber startColumn].
    split; [exists (c :: d); auto|].
    split; [right; exists (c' :: d'); auto|].
    split; [exact HnL|exact HnC].
Qed.

Lemma selection_is_numeric_witness :
  exists L, L <> [] /\ all_digits L /\
            startLineNumber {| startLineNumber := Num 42;
                               startColumn := Num 7 |}
            = parseInt L None /\
            parseInt L None = to_number false (decimal L).
Proof.
  apply (selection_is_numeric (lit "src/a.ts:42:7")
           {| startLineNumber := Num 42; startColumn := Num 7 |}).
  reflexivity.
Defined.

End NumericSelection.

(** ** Links written as URLs *)

Module FileUrl.

Import JS Regex Services SearchLinkOpener Observations Shapes StringFacts
       Examples.

(** X17.  Opening a link written as a [file:///] URL is opening the path
    that follows the three slashes: the leading slash of an absolute
    path is removed with the scheme, and every call [open] makes is the
    call it makes for that path without it. *)
Theorem file_url_opens_as_its_path
    (env : Env) (lk : ITerminalSimpleLink) (t : str) :
  text lk = lit "file:///" ++ t ->
  starts_with (lit "file://") t = false ->
  open_text env (text lk) = open_text env t /\
  run (open env lk)
  = run (open env {| text := t;
                     bufferRange_start_y := bufferRange_start_y lk;
                     link_uri := link_uri lk |}).
Proof.
  intros Htext Ht.
  assert (Hclean : open_text env (text lk) = open_text env t).
  { unfold open_text. rewrite Htext.
    rewrite (Normalization.file_scheme_no_match t Ht).
    rewrite Expressions.replace_file_scheme.
    reflexivity. }
  split; [exact Hclean|].
  unfold run, open, open_sanitizedLink, open_matchLink.
  cbn [text bufferRange_start_y]. rewrite Hclean. reflexivity.
Qed.

Lemma file_url_opens_as_its_path_witness :
  open_text one_result_host (lit "file:///proj/src/a.ts")
  = open_text one_result_host (lit "proj/src/a.ts").
Proof.
  apply (file_url_opens_as_its_path one_result_host
           (link_of "file:///proj/src/a.ts") (lit "proj/src/a.ts"));
    reflexivity.
Defined.

End FileUrl.

(** ** What the static checks establish *)

Module AnalysisFacts.

Import JS Regex Analysis StringFacts RegexFacts Trimming.









(** A match leaves the groups below those of the expression as they
    were. *)
Lemma iter_star_caps_below (n : nat) (step : mstate -> list mstate) :
  (forall st st', In st' (step st) ->
                  forall j, j < n -> capture j (caps st') = capture j (caps st)) ->
  forall fuel st st',
    In st' (iter_star step fuel st) ->
    forall j, j < n -> capture j (caps st') = capture j (caps st).
Proof.
  intros Hstep. induction fuel as [|fuel IH]; intros st st' Hin j Hj.
  - destruct Hin as [<-|[]]. reflexivity.
  - rewrite iter_star_S in Hin. apply in_app_or in Hin as [Hin|[<-|[]]].
    + apply in_flat_map in Hin as [st1 [H1 Hin]].
      destruct (pos st <? pos st1); [|destruct Hin].
      rewrite (IH _ _ Hin j Hj). now apply (Hstep st st1).
    + reflexivity.
Qed.

Lemma ms_caps_below (n : nat) (r : regex) :
  groups_from n r = true ->
  forall st st',
    In st' (ms r st) ->
    forall j, j < n -> capture j (caps st') = capture j (caps st).
Proof.
  induction r as [q| | |r1 IH1 r2 IH2|r IH|r IH|i r IH|r1 IH1 r2 IH2];
    cbn [groups_from]; intros Hc st st' Hin j Hj.
  - apply in_ms_Chr in Hin as [c (_ & _ & _ & Hcaps)]. now rewrite Hcaps.
  - cbn [ms] in Hin. destruct (pos st =? 0); [|destruct Hin].
    destruct Hin as [<-|[]]. reflexivity.
  - apply in_ms_Eol in Hin as [-> _]. reflexivity.
  - apply andb_prop in Hc as [Hc1 Hc2].
    rewrite ms_Seq in Hin. apply in_flat_map in Hin as [st1 [H1 Hin]].
    rewrite (IH2 Hc2 _ _ Hin j Hj). now apply (IH1 Hc1 st st1).
  - rewrite ms_Opt in Hin. apply in_app_or in Hin as [Hin|[<-|[]]].
    + now apply (IH Hc st st').
    + reflexivity.
  - rewrite ms_Star in Hin.
    now apply (iter_star_caps_below n (ms r) (IH Hc) _ _ _ Hin).
  - apply andb_prop in Hc as [Hi Hc]. apply Nat.leb_le in Hi.
    rewrite ms_Group in Hin. apply in_map_iff in Hin as [st1 [<- Hin]].
    cbn [set_cap caps capture].
    destruct (Nat.eqb_spec j i) as [->|Hne]; [lia|].
    now apply (IH Hc st st1).
  - apply andb_prop in Hc as [Hc1 Hc2].
    rewrite ms_Alt in Hin. apply in_app_or in Hin as [Hin|Hin];
      [now apply (IH1 Hc1 st st')|now apply (IH2 Hc2 st st')].
Qed.

End AnalysisFacts.

(** ** The fragments of the local file opener *)

Module LinkFragments.

Import JS Regex Services LocalFileLinkOpener Observations Detector Analysis
       Fragments StringFacts RegexFacts Trimming AnalysisFacts LineColumn
       Expressions Selection.












(** The segments of a path: a separator, read by [sepr], and one or more
    characters of the class [p], one or more times. *)
Section Segments.

Variables (p s : ascii -> bool) (sepr : regex) (i k : nat).

Hypothesis sepr_sound :
  forall st st', In st' (ms sepr st) ->
                 exists c, rest st = c :: rest st' /\ s c = true.

Hypothesis sepr_complete :
  forall st c t, rest st = c :: t -> s c = true -> ms sepr st <> [].

Local Abbreviation segment := (Group i (Seq sepr (Plus (Group k (Chr p))))).







End Segments.













































End LinkFragments.
